(** * Edge boundary over a fragment-partitioned graph

    A shallow embedding of [gs::EdgeBoundary]
    (analytical_engine/apps/boundary/edge_boundary.h): the identifier
    resolution, the local boundary scan, the merge at worker 0 after the
    collective gather, the result materialisation [writeToCtx] and the empty
    [IncEval].

    Conventions.
    - [std::set<T>] is a finite set ([gset]) whose iteration visits the
      elements in ascending order of [operator<] ([set_iter_vid],
      [set_iter_edge]).
    - [vid_t] is an unsigned integer: [N].  No arithmetic is done on it.
    - The fragment, the JSON parser and the message manager are external to
      the file under study; the fragment is a record of the member functions
      the application calls, the parser is a section variable. *)

From Stdlib Require Import Ascii.
From stdpp Require Import gmap strings list sorting.

Set Warnings "-clear-no-such-hyp".

Abbreviation vid_t := N (only parsing).
Abbreviation vertex_t := N (only parsing).
Abbreviation oid_t := Z (only parsing).
Abbreviation edge_t := (N * N)%type (only parsing).

(** ** Errors *)

(** [folly::parseJson] throws on malformed input; nothing else in the
    application can fail. *)
Inductive result (A : Type) : Type :=
  | Ok (a : A)
  | ParseError.
Arguments Ok {A} a.
Arguments ParseError {A}.

#[global] Instance result_ret : MRet result := λ A a, Ok a.
#[global] Instance result_bind : MBind result := λ A B f r,
  match r with
  | Ok a => f a
  | ParseError => ParseError
  end.

(** Run a list of computations in order; the first failure aborts. *)
Fixpoint sequence {A} (rs : list (result A)) : result (list A) :=
  match rs with
  | [] => Ok []
  | r :: rs => a ← r; l ← sequence rs; Ok (a :: l)
  end.

(** ** Iteration order of [std::set] *)

(** [operator<=] of [std::pair<vid_t, vid_t>]: lexicographic. *)
Definition pair_le (a b : edge_t) : Prop :=
  (a.1 < b.1)%N ∨ (a.1 = b.1 ∧ (a.2 ≤ b.2)%N).

#[global] Instance pair_le_dec : RelDecision pair_le.
Proof. intros a b. unfold pair_le. apply _. Defined.

(** The elements of a set in ascending order. *)
Definition set_iter `{Countable A} (R : relation A) `{!RelDecision R}
    (s : gset A) : list A :=
  merge_sort R (elements s).

(** [for (auto& gid : node_gid_set)] *)
Definition set_iter_vid (s : gset N) : list N := set_iter N.le s.

(** [for (auto& e : ctx.boundary)] *)
Definition set_iter_edge (s : gset edge_t) : list edge_t := set_iter pair_le s.

(** ** The fragment interface *)

(** An entry of an adjacency list; only the neighbour is read. *)
Record nbr_t := { get_neighbor : vertex_t }.

(** The member functions of [fragment_t] used by the application.  The two
    translations that report success through a [bool] and write their answer
    through a reference return an [option] here. *)
Record fragment_t := {
  fid : nat;
  Oid2Gid : oid_t → option vid_t;
  Gid2Oid : vid_t → oid_t;
  InnerVertexGid2Vertex : vid_t → option vertex_t;
  GetOutgoingAdjList : vertex_t → list nbr_t;
  Vertex2Gid : vertex_t → vid_t
}.

(** ** The context *)

Record tensor_t := { t_data : list oid_t; t_shape : list nat }.

(** Modelled from the spec: [EdgeBoundaryContext] (edge_boundary_context.h)
    holds the two inputs [nbunch1] and [nbunch2], the working set [boundary]
    and an output slot written by [assign].  The output slot is kept as the
    log of the calls of [assign], newest first, so that the number of writes
    can be stated; the slot's current content is the head of the log. *)
Record context_t := {
  nbunch1 : string;
  nbunch2 : string;
  boundary : gset edge_t;
  assigned : list tensor_t
}.

Definition set_boundary (b : gset edge_t) (ctx : context_t) : context_t :=
  {| nbunch1 := nbunch1 ctx; nbunch2 := nbunch2 ctx;
     boundary := b; assigned := assigned ctx |}.

(** [ctx.assign(data, shape)] *)
Definition assign (data : list oid_t) (shape : list nat) (ctx : context_t)
  : context_t :=
  {| nbunch1 := nbunch1 ctx; nbunch2 := nbunch2 ctx;
     boundary := boundary ctx;
     assigned := {| t_data := data; t_shape := shape |} :: assigned ctx |}.

(** The context of a fresh query. *)
Definition init_ctx (s1 s2 : string) : context_t :=
  {| nbunch1 := s1; nbunch2 := s2; boundary := ∅; assigned := [] |}.

(** The output slot. *)
Definition output (ctx : context_t) : option tensor_t := head (assigned ctx).

(** The rows of a flat row-major sequence with two columns. *)
Fixpoint rows_of (data : list oid_t) : list (oid_t * oid_t) :=
  match data with
  | a :: b :: rest => (a, b) :: rows_of rest
  | _ => []
  end.

(** Modelled from the spec: the message manager is the buffer of the
    messages a fragment has emitted; a fragment reports pending work when the
    buffer is not empty. *)
Record message_manager_t := { outgoing : list (nat * list N) }.

Definition has_pending (m : message_manager_t) : bool :=
  match outgoing m with
  | [] => false
  | _ :: _ => true
  end.

(** One worker: a fragment, its context and its message manager. *)
Record worker := {
  w_frag : fragment_t;
  w_ctx : context_t;
  w_msgs : message_manager_t
}.

(** ** The application *)

Section App.
(** [folly::parseJson] followed by the iteration over the parsed array. *)
Variable parseJson : string → result (list oid_t).

(** Lines 53-57 and 60-64: the loop that fills a [std::set<vid_t>]. *)
Definition resolve (frag : fragment_t) (node_array : list oid_t) : gset N :=
  foldl (λ s oid,
           match Oid2Gid frag oid with
           | Some gid => {[gid]} ∪ s
           | None => s
           end) ∅ node_array.

(** Lines 71-80: the body of the loop over an adjacency list. *)
Definition scan_edge (frag : fragment_t) (node_gid_set node_gid_set_2 : gset N)
    (gid : N) (b : gset edge_t) (e : nbr_t) : gset edge_t :=
  let vgid := Vertex2Gid frag (get_neighbor e) in
  if decide (node_gid_set_2 = ∅) then
    if decide (vgid ∈ node_gid_set) then b else {[(gid, vgid)]} ∪ b
  else
    if decide (vgid ∈ node_gid_set_2) then {[(gid, vgid)]} ∪ b else b.

(** Lines 69-82: the body of the loop over [node_gid_set]. *)
Definition scan_vertex (frag : fragment_t) (node_gid_set node_gid_set_2 : gset N)
    (b : gset edge_t) (gid : N) : gset edge_t :=
  match InnerVertexGid2Vertex frag gid with
  | Some u =>
      foldl (scan_edge frag node_gid_set node_gid_set_2 gid) b
            (GetOutgoingAdjList frag u)
  | None => b
  end.

(** Lines 68-83. *)
Definition scan (frag : fragment_t) (node_gid_set node_gid_set_2 : gset N)
    (b : gset edge_t) : gset edge_t :=
  foldl (scan_vertex frag node_gid_set node_gid_set_2) b
        (set_iter_vid node_gid_set).

(** Lines 58-65: the second subset is parsed only when the string is not
    empty. *)
Definition resolve_2 (frag : fragment_t) (ctx : context_t) : result (gset N) :=
  if decide (nbunch2 ctx = EmptyString) then Ok ∅
  else node_array_2 ← parseJson (nbunch2 ctx);
       Ok (resolve frag node_array_2).

(** [PEval] up to the call of [AllGather] (lines 49-83). *)
Definition PEval_scan (frag : fragment_t) (ctx : context_t) : result context_t :=
  node_array_1 ← parseJson (nbunch1 ctx);
  let node_gid_set := resolve frag node_array_1 in
  node_gid_set_2 ← resolve_2 frag ctx;
  Ok (set_boundary (scan frag node_gid_set node_gid_set_2 (boundary ctx)) ctx).

(** Lines 90-94: worker 0 inserts the sets of the other workers. *)
Definition merge_gathered (b : gset edge_t) (all_boundary : list (gset edge_t))
  : gset edge_t :=
  foldl (λ b s, foldl (λ b v, {[v]} ∪ b) b (set_iter_edge s)) b
        (drop 1 all_boundary).

(** Lines 107-115. *)
Definition writeToCtx (frag : fragment_t) (ctx : context_t) : context_t :=
  let data :=
    foldl (λ data e, data ++ [Gid2Oid frag e.1] ++ [Gid2Oid frag e.2]) []
          (set_iter_edge (boundary ctx)) in
  let shape := [length data / 2; 2] in
  assign data shape ctx.

(** [PEval] after [AllGather] has returned [all_boundary] (lines 89-96). *)
Definition PEval_merge (frag : fragment_t) (ctx : context_t)
    (all_boundary : list (gset edge_t)) : context_t :=
  if decide (fid frag = 0) then
    writeToCtx frag
      (set_boundary (merge_gathered (boundary ctx) all_boundary) ctx)
  else ctx.

(** Lines 99-104: the body is empty. *)
Definition IncEval (frag : fragment_t) (ctx : context_t)
    (messages : message_manager_t) : context_t * message_manager_t :=
  (ctx, messages).

(** *** All workers together *)

(** [AllGather]: every worker contributes its set and receives the
    sequence of all contributions, indexed by worker. *)
Definition AllGather (ctxs : list context_t) : list (gset edge_t) :=
  boundary <$> ctxs.

(** The worker contexts when all workers have reached [AllGather]; a worker
    that fails to parse its input fails the superstep. *)
Definition scans (ws : list worker) : result (list context_t) :=
  sequence ((λ w, PEval_scan (w_frag w) (w_ctx w)) <$> ws).

(** What [PEval] makes of a worker, given its context at the gather and the
    gathered sequence.  [PEval] never uses its [messages] argument. *)
Definition finish (all_boundary : list (gset edge_t)) (w : worker)
    (ctx : context_t) : worker :=
  {| w_frag := w_frag w;
     w_ctx := PEval_merge (w_frag w) ctx all_boundary;
     w_msgs := w_msgs w |}.

(** The initial superstep: every worker runs [PEval]; the collective call
    in its middle is a barrier, so all scans precede all merges. *)
Definition PEval_round (ws : list worker) : result (list worker) :=
  ctxs ← scans ws;
  Ok (zip_with (finish (AllGather ctxs)) ws ctxs).

(** An incremental superstep. *)
Definition IncEval_round (ws : list worker) : list worker :=
  (λ w, let '(ctx, messages) := IncEval (w_frag w) (w_ctx w) (w_msgs w) in
        {| w_frag := w_frag w; w_ctx := ctx; w_msgs := messages |}) <$> ws.

(** Modelled from the spec: the superstep driver (section 4.5).  After the
    initial phase the incremental phase is invoked for as long as some
    fragment reports pending work: the test comes before every incremental
    round, the first one included.  The result is the number of incremental
    rounds and the final workers; [None] when the fuel runs out while work
    is still pending. *)
Fixpoint inc_loop (fuel : nat) (ws : list worker) : option (nat * list worker) :=
  if existsb (λ w, has_pending (w_msgs w)) ws then
    match fuel with
    | O => None
    | S fuel => '(n, r) ← inc_loop fuel (IncEval_round ws); Some (S n, r)
    end
  else Some (0, ws).

Definition Query (fuel : nat) (ws : list worker)
  : result (option (nat * list worker)) :=
  ws' ← PEval_round ws; Ok (inc_loop fuel ws').

(** The workers of a fresh query over the fragments [frags]. *)
Definition init_workers (frags : list fragment_t) (s1 s2 : string) : list worker :=
  (λ f, {| w_frag := f; w_ctx := init_ctx s1 s2;
           w_msgs := {| outgoing := [] |} |}) <$> frags.

(** *** Vocabulary for a fresh query *)

(** The identifiers of the second subset: none when the string is empty. *)
Definition parse_2 (s : string) : result (list oid_t) :=
  if decide (s = EmptyString) then Ok [] else parseJson s.

(** The content of the coordinator's output slot after the initial phase of
    a fresh query. *)
Definition final_output (frags : list fragment_t) (s1 s2 : string)
  : result (option tensor_t) :=
  ws ← PEval_round (init_workers frags s1 s2);
  Ok (w ← ws !! 0; output (w_ctx w)).
End App.

(** The Partial Boundary of a fragment for the subsets [l1] and [l2]. *)
Definition partial_boundary (frag : fragment_t) (l1 l2 : list oid_t)
  : gset edge_t :=
  scan frag (resolve frag l1) (resolve frag l2) ∅.

(** ** Vocabulary of the statements *)

(** The membership rule of lines 72-80: with an empty second set a neighbour
    is admitted when it is outside the first set, otherwise when it is in the
    second set. *)
Definition admits (set1 set2 : gset N) (n : N) : Prop :=
  if decide (set2 = ∅) then n ∉ set1 else n ∈ set2.

(** The pairs a fragment discovers at the source [gid]. *)
Definition found_at (frag : fragment_t) (set1 set2 : gset N) (gid : N)
    (p : edge_t) : Prop :=
  ∃ u e, InnerVertexGid2Vertex frag gid = Some u ∧
         e ∈ GetOutgoingAdjList frag u ∧
         p = (gid, Vertex2Gid frag (get_neighbor e)) ∧
         admits set1 set2 (Vertex2Gid frag (get_neighbor e)).

(** A pair of global identifiers translated back. *)
Definition row_of (frag : fragment_t) (e : edge_t) : oid_t * oid_t :=
  (Gid2Oid frag e.1, Gid2Oid frag e.2).

(** The tensor of a boundary: its pairs in ascending order, translated back
    and laid out row after row, with the number of pairs as first dimension. *)
Definition result_tensor (frag : fragment_t) (b : gset edge_t) : tensor_t :=
  {| t_data := flat_map (λ e, [Gid2Oid frag e.1; Gid2Oid frag e.2])
                        (set_iter_edge b);
     t_shape := [size b; 2] |}.

(** The Merged Boundary: the union of the Partial Boundaries. *)
Definition merged_boundary (frags : list fragment_t) (l1 l2 : list oid_t)
  : gset edge_t :=
  ⋃ ((λ f, partial_boundary f l1 l2) <$> frags).

(** What a worker holds after the initial phase of a fresh query. *)
Definition fresh_worker (s1 s2 : string) (l1 l2 : list oid_t)
    (frags : list fragment_t) (f : fragment_t) : worker :=
  finish ((λ f, partial_boundary f l1 l2) <$> frags)
         {| w_frag := f; w_ctx := init_ctx s1 s2;
            w_msgs := {| outgoing := [] |} |}
         (set_boundary (partial_boundary f l1 l2) (init_ctx s1 s2)).

(** What a worker's context shows besides its inputs: the boundary and the
    log of the output slot. *)
Definition obs (w : worker) : gset edge_t * list tensor_t :=
  (boundary (w_ctx w), assigned (w_ctx w)).

(** ** Graphs and their fragmentations *)

(** The graph as the caller sees it: vertices and directed edges named by
    external identifiers. *)
Record graph := { vertices : list oid_t; edges : list (oid_t * oid_t) }.

(** What the fragment abstraction promises about the fragments of one graph:
    worker [i] holds fragment [i]; every fragment translates the external
    identifiers of the vertices, and only those, all in the same way, and
    translates back; every vertex is inner to some fragment; the outgoing
    adjacency list of an inner vertex holds the edges of the graph that leave
    it. *)
Record Fragmentation (G : graph) (frags : list fragment_t) : Prop := {
  frag_fid : ∀ i f, frags !! i = Some f → fid f = i;
  frag_coordinator : is_Some (frags !! 0);
  frag_endpoints : ∀ u v, (u, v) ∈ edges G → u ∈ vertices G ∧ v ∈ vertices G;
  frag_vm_dom : ∀ f o, f ∈ frags → is_Some (Oid2Gid f o) ↔ o ∈ vertices G;
  frag_vm_shared : ∀ f f' o, f ∈ frags → f' ∈ frags → Oid2Gid f o = Oid2Gid f' o;
  frag_vm_inv : ∀ f o g, f ∈ frags → Oid2Gid f o = Some g → Gid2Oid f g = o;
  frag_owner : ∀ f o g, f ∈ frags → Oid2Gid f o = Some g →
    ∃ f', f' ∈ frags ∧ is_Some (InnerVertexGid2Vertex f' g);
  frag_adj : ∀ f g u n, f ∈ frags → InnerVertexGid2Vertex f g = Some u →
    (∃ e, e ∈ GetOutgoingAdjList f u ∧ Vertex2Gid f (get_neighbor e) = n) ↔
    (∃ ou ov, (ou, ov) ∈ edges G ∧ Oid2Gid f ou = Some g ∧ Oid2Gid f ov = Some n)
}.

(** The edges of the graph, in global identifiers as a fragment sees them. *)
Definition gid_edge (G : graph) (frag : fragment_t) (g n : N) : Prop :=
  ∃ ou ov, (ou, ov) ∈ edges G ∧ Oid2Gid frag ou = Some g ∧ Oid2Gid frag ov = Some n.

(** *** A fragment builder for examples *)

(** A layout fixes the global identifier of every vertex, the worker that
    owns it and the number of workers. *)
Record layout := {
  lay_vm : list (oid_t * vid_t);
  lay_owner : vid_t → nat;
  lay_fnum : nat
}.

Definition mk_fragment (G : graph) (L : layout) (i : nat) : fragment_t :=
  let vm : gmap Z N := list_to_map (lay_vm L) in
  let rvm : gmap N Z := list_to_map (prod_swap <$> lay_vm L) in
  {| fid := i;
     Oid2Gid := λ o, vm !! o;
     Gid2Oid := λ g, default 0%Z (rvm !! g);
     InnerVertexGid2Vertex := λ g,
       if decide (lay_owner L g = i ∧ is_Some (rvm !! g)) then Some g else None;
     GetOutgoingAdjList := λ u,
       omap (λ e : oid_t * oid_t,
               if decide (vm !! e.1 = Some u)
               then (λ n, {| get_neighbor := n |}) <$> vm !! e.2
               else None) (edges G);
     Vertex2Gid := λ v, v |}.

Definition mk_fragments (G : graph) (L : layout) : list fragment_t :=
  mk_fragment G L <$> seq 0 (lay_fnum L).

(** A layout fits a graph when it numbers exactly the vertices of the graph,
    each once and with a number of its own, the edges join vertices, and
    every vertex has an owner among the workers. *)
Definition valid_layout (G : graph) (L : layout) : Prop :=
  NoDup (lay_vm L).*1 ∧ NoDup (lay_vm L).*2 ∧
  Forall (λ o, o ∈ (lay_vm L).*1) (vertices G) ∧
  Forall (λ o, o ∈ vertices G) (lay_vm L).*1 ∧
  Forall (λ e : oid_t * oid_t, e.1 ∈ vertices G ∧ e.2 ∈ vertices G) (edges G) ∧
  Forall (λ g, lay_owner L g < lay_fnum L) (lay_vm L).*2 ∧
  0 < lay_fnum L.

#[global] Instance valid_layout_dec G L : Decision (valid_layout G L).
Proof. unfold valid_layout. apply _. Defined.

(** *** A parser for examples *)

Definition digit_of (c : Ascii.ascii) : option Z :=
  let n := Z.of_nat (Ascii.nat_of_ascii c) in
  if decide (48 ≤ n ≤ 57)%Z then Some (n - 48)%Z else None.

(** The elements of an array of decimal numbers, after the opening bracket. *)
Fixpoint parse_elems (s : string) (cur : option Z) (acc : list Z)
  : result (list Z) :=
  match s with
  | EmptyString => ParseError
  | String c s' =>
      if decide (c = "]"%char) then
        match s', cur, acc with
        | EmptyString, Some n, _ => Ok (acc ++ [n])
        | EmptyString, None, [] => Ok []
        | _, _, _ => ParseError
        end
      else if decide (c = ","%char) then
        match cur with
        | Some n => parse_elems s' None (acc ++ [n])
        | None => ParseError
        end
      else
        match digit_of c with
        | Some d => parse_elems s' (Some (10 * default 0 cur + d)%Z) acc
        | None => ParseError
        end
  end.

(** A stand-in for [folly::parseJson] on arrays of non-negative integers
    written without blanks. *)
Definition example_parseJson (s : string) : result (list oid_t) :=
  match s with
  | String c s' => if decide (c = "["%char) then parse_elems s' None [] else ParseError
  | EmptyString => ParseError
  end.

(** *** The graph of the examples: edges (1,2), (1,3), (2,3), (4,1) *)

Definition exG : graph :=
  {| vertices := [1; 2; 3; 4]%Z;
     edges := [(1, 2); (1, 3); (2, 3); (4, 1)]%Z |}.

(** Both layouts below have two workers and give the vertex with local
    index [lid] of worker [fid] the global identifier [2 * fid + lid]. *)

(** Range partition: worker 0 owns the labels 1 and 2, worker 1 owns 3 and
    4. *)
Definition exL : layout :=
  {| lay_vm := [(1%Z, 0%N); (2%Z, 1%N); (3%Z, 2%N); (4%Z, 3%N)];
     lay_owner := λ g, N.to_nat (g / 2);
     lay_fnum := 2 |}.

(** Hash partition: worker 0 owns the even labels, worker 1 the odd ones. *)
Definition exL' : layout :=
  {| lay_vm := [(2%Z, 0%N); (4%Z, 1%N); (1%Z, 2%N); (3%Z, 3%N)];
     lay_owner := λ g, N.to_nat (g / 2);
     lay_fnum := 2 |}.

Definition exFrags : list fragment_t := mk_fragments exG exL.
Definition exFrags' : list fragment_t := mk_fragments exG exL'.

(** ** Vocabulary of the further properties *)

(** No vertex is inner to two workers. *)
Definition unique_owner (frags : list fragment_t) : Prop :=
  ∀ i j f f' g, frags !! i = Some f → frags !! j = Some f' →
    is_Some (InnerVertexGid2Vertex f g) →
    is_Some (InnerVertexGid2Vertex f' g) → i = j.

(** A row of external identifiers translated to global identifiers. *)
Definition gids_of_row (frag : fragment_t) (r : oid_t * oid_t)
  : option N * option N :=
  (Oid2Gid frag r.1, Oid2Gid frag r.2).

(** * Properties *)

(** ** The error monad *)

Lemma sequence_Ok {A} (rs : list (result A)) (l : list A) :
  sequence rs = Ok l ↔ Forall2 (λ r a, r = Ok a) rs l.
Proof.
  revert l. induction rs as [|r rs IH]; intros l; simpl.
  - split.
    + intros [= <-]. constructor.
    + intros H. inversion H. reflexivity.
  - destruct r as [a|]; simpl.
    + destruct (sequence rs) as [l'|] eqn:E; simpl.
      * split.
        -- intros [= <-]. constructor; [done|]. by apply IH.
        -- intros H. inversion H as [|? ? ? ? Ha Hl]; subst.
           injection Ha as <-. apply IH in Hl. by injection Hl as <-.
      * split; [done|]. intros H. inversion H as [|? ? ? ? Ha Hl]; subst.
        apply IH in Hl. done.
    + split; [done|]. intros H. by inversion H.
Qed.

(** ** Iteration over a set *)

#[global] Instance pair_le_total : Total pair_le.
Proof. intros [a1 a2] [b1 b2]. unfold pair_le. simpl. lia. Qed.

#[global] Instance pair_le_trans : Transitive pair_le.
Proof. intros [a1 a2] [b1 b2] [c1 c2]. unfold pair_le. simpl. lia. Qed.

#[global] Instance pair_le_antisymm : AntiSymm (=) pair_le.
Proof.
  intros [a1 a2] [b1 b2]. unfold pair_le. simpl. intros H1 H2.
  f_equal; lia.
Qed.

Section SetIter.
Context `{Countable A} (R : relation A) `{!RelDecision R}
        `{!Total R} `{!Transitive R} `{!AntiSymm (=) R}.

Lemma set_iter_perm s : set_iter R s ≡ₚ elements s.
Proof. apply merge_sort_Permutation. Qed.

Lemma elem_of_set_iter s x : x ∈ set_iter R s ↔ x ∈ s.
Proof. by rewrite set_iter_perm, elem_of_elements. Qed.

Lemma NoDup_set_iter s : NoDup (set_iter R s).
Proof. rewrite set_iter_perm. apply NoDup_elements. Qed.

Lemma length_set_iter s : length (set_iter R s) = size s.
Proof. by rewrite set_iter_perm. Qed.

Lemma Sorted_set_iter s : Sorted R (set_iter R s).
Proof. by apply Sorted_merge_sort. Qed.

(** The iteration is the only sorted enumeration of the set. *)
Lemma set_iter_unique s l :
  Sorted R l → NoDup l → (∀ x, x ∈ l ↔ x ∈ s) → l = set_iter R s.
Proof.
  intros Hs Hn Hl. apply (Sorted_unique R); [done|apply Sorted_set_iter|].
  apply NoDup_Permutation; [done|apply NoDup_set_iter|].
  intros x. by rewrite Hl, elem_of_set_iter.
Qed.
End SetIter.

Lemma elem_of_set_iter_vid s x : x ∈ set_iter_vid s ↔ x ∈ s.
Proof. apply (elem_of_set_iter N.le). Qed.

Lemma elem_of_set_iter_edge s x : x ∈ set_iter_edge s ↔ x ∈ s.
Proof. apply (elem_of_set_iter pair_le). Qed.

(** Inserting the elements of a list one by one. *)
Lemma foldl_insert `{Countable A} (l : list A) (b : gset A) :
  foldl (λ b v, {[v]} ∪ b) b l = b ∪ list_to_set l.
Proof.
  revert b. induction l as [|x l IH]; intros b; simpl.
  - set_solver.
  - rewrite IH. set_solver.
Qed.

(** ** Identifier resolution *)

Lemma elem_of_resolve (frag : fragment_t) (node_array : list oid_t) (g : N) :
  g ∈ resolve frag node_array ↔
  ∃ oid, oid ∈ node_array ∧ Oid2Gid frag oid = Some g.
Proof.
  unfold resolve.
  cut (∀ s0 : gset N,
        g ∈ foldl (λ s oid, match Oid2Gid frag oid with
                            | Some gid => {[gid]} ∪ s
                            | None => s
                            end) s0 node_array ↔
        g ∈ s0 ∨ ∃ oid, oid ∈ node_array ∧ Oid2Gid frag oid = Some g).
  { intros Hc. rewrite Hc. set_solver. }
  induction node_array as [|o l IH]; intros s0; simpl.
  - set_solver.
  - rewrite IH. destruct (Oid2Gid frag o) as [g'|] eqn:E.
    + split.
      * intros [[->%elem_of_singleton|?]%elem_of_union|(o' & ? & ?)].
        -- right. exists o. split; [left|done].
        -- by left.
        -- right. exists o'. split; [by right|done].
      * intros [?|(o' & [->|?]%elem_of_cons & Ho)].
        -- left. set_solver.
        -- left. rewrite E in Ho. injection Ho as ->. set_solver.
        -- right. eauto.
    + split.
      * intros [?|(o' & ? & ?)]; [by left|].
        right. exists o'. split; [by right|done].
      * intros [?|(o' & [->|?]%elem_of_cons & Ho)]; [by left| |].
        -- congruence.
        -- right. eauto.
Qed.

(** An identifier that the fragment cannot translate leaves no trace. *)
Lemma resolve_drop (frag : fragment_t) (l1 l2 : list oid_t) (oid : oid_t) :
  Oid2Gid frag oid = None →
  resolve frag (l1 ++ oid :: l2) = resolve frag (l1 ++ l2).
Proof.
  intros Hn. unfold resolve. rewrite !foldl_app. simpl. by rewrite Hn.
Qed.

Lemma resolve_all_fail (frag : fragment_t) (l : list oid_t) :
  (∀ oid, oid ∈ l → Oid2Gid frag oid = None) ↔ resolve frag l = ∅.
Proof.
  split.
  - intros Hl. apply set_eq. intros g. rewrite elem_of_resolve.
    split; [|set_solver]. intros (o & Ho & Hg). rewrite (Hl o Ho) in Hg. done.
  - intros He o Ho. destruct (Oid2Gid frag o) as [g|] eqn:E; [|done].
    assert (g ∈ resolve frag l) as Hg by (apply elem_of_resolve; eauto).
    rewrite He in Hg. set_solver.
Qed.

(** ** The local scan *)

Section Scan.
Variables (frag : fragment_t) (set1 set2 : gset N).

Lemma elem_of_scan_edge gid b e p :
  p ∈ scan_edge frag set1 set2 gid b e ↔
  p ∈ b ∨ (p = (gid, Vertex2Gid frag (get_neighbor e)) ∧
           admits set1 set2 (Vertex2Gid frag (get_neighbor e))).
Proof.
  unfold scan_edge, admits. repeat case_decide; set_solver.
Qed.

Lemma elem_of_scan_adj gid b es p :
  p ∈ foldl (scan_edge frag set1 set2 gid) b es ↔
  p ∈ b ∨ ∃ e, e ∈ es ∧ p = (gid, Vertex2Gid frag (get_neighbor e)) ∧
               admits set1 set2 (Vertex2Gid frag (get_neighbor e)).
Proof.
  revert b. induction es as [|e es IH]; intros b; simpl.
  - set_solver.
  - rewrite IH, elem_of_scan_edge. split.
    + intros [[?|[? ?]]|(e' & ? & ? & ?)].
      * by left.
      * right. exists e. split; [left|done].
      * right. exists e'. split; [by right|done].
    + intros [?|(e' & [->|?]%elem_of_cons & ? & ?)].
      * left. by left.
      * left. by right.
      * right. eauto.
Qed.

Lemma elem_of_scan_vertex b gid p :
  p ∈ scan_vertex frag set1 set2 b gid ↔ p ∈ b ∨ found_at frag set1 set2 gid p.
Proof.
  unfold scan_vertex, found_at.
  destruct (InnerVertexGid2Vertex frag gid) as [u|] eqn:E.
  - rewrite elem_of_scan_adj. split.
    + intros [?|(e & ? & ? & ?)]; [by left|]. right. by exists u, e.
    + intros [?|(u' & e & [= <-] & ? & ? & ?)]; [by left|]. right. eauto.
  - split; [by left|]. intros [?|(u' & e & ? & _)]; done.
Qed.

Lemma elem_of_scan_list b gids p :
  p ∈ foldl (scan_vertex frag set1 set2) b gids ↔
  p ∈ b ∨ ∃ gid, gid ∈ gids ∧ found_at frag set1 set2 gid p.
Proof.
  revert b. induction gids as [|g gids IH]; intros b; simpl.
  - set_solver.
  - rewrite IH, elem_of_scan_vertex. split.
    + intros [[?|?]|(g' & ? & ?)].
      * by left.
      * right. exists g. split; [left|done].
      * right. exists g'. split; [by right|done].
    + intros [?|(g' & [->|?]%elem_of_cons & ?)].
      * left. by left.
      * left. by right.
      * right. eauto.
Qed.

(** What the scan adds to the boundary: the pairs [(g, n)] with [g] in the
    first set and inner to the fragment, [n] the global identifier of an
    outgoing neighbour of [g], and [n] admitted by the rule. *)
Lemma elem_of_scan b g n :
  (g, n) ∈ scan frag set1 set2 b ↔
  (g, n) ∈ b ∨
  (g ∈ set1 ∧
   ∃ u e, InnerVertexGid2Vertex frag g = Some u ∧
          e ∈ GetOutgoingAdjList frag u ∧
          Vertex2Gid frag (get_neighbor e) = n ∧ admits set1 set2 n).
Proof.
  unfold scan. rewrite elem_of_scan_list. unfold found_at. split.
  - intros [?|(g' & Hg & u & e & ? & ? & [= -> ->] & ?)]; [by left|].
    right. apply elem_of_set_iter_vid in Hg. split; [done|]. by exists u, e.
  - intros [?|(Hg & u & e & ? & ? & <- & ?)]; [by left|].
    right. exists g. split; [by apply elem_of_set_iter_vid|]. by exists u, e.
Qed.
End Scan.

(** ** The merge at worker 0 *)

Lemma merge_gathered_union (b : gset edge_t) (all_boundary : list (gset edge_t)) :
  merge_gathered b all_boundary = b ∪ ⋃ (drop 1 all_boundary).
Proof.
  unfold merge_gathered. generalize (drop 1 all_boundary) as l.
  intros l. revert b. induction l as [|s l IH]; intros b; simpl.
  - set_solver.
  - rewrite IH, foldl_insert. apply set_eq. intros x.
    rewrite !elem_of_union, elem_of_list_to_set, elem_of_set_iter_edge.
    tauto.
Qed.

(** Worker 0 contributes the first set of the gathered sequence, so merging
    the others into it gives the union of the whole sequence. *)
Lemma merge_gathered_all (b : gset edge_t) (rest : list (gset edge_t)) :
  merge_gathered b (b :: rest) = ⋃ (b :: rest).
Proof. rewrite merge_gathered_union. reflexivity. Qed.

(** ** Result materialisation *)

Lemma writeToCtx_data_aux (frag : fragment_t) (l : list edge_t) (d : list oid_t) :
  foldl (λ data e, data ++ [Gid2Oid frag e.1] ++ [Gid2Oid frag e.2]) d l =
  d ++ flat_map (λ e, [Gid2Oid frag e.1; Gid2Oid frag e.2]) l.
Proof.
  revert d. induction l as [|e l IH]; intros d; simpl.
  - by rewrite app_nil_r.
  - rewrite IH. by rewrite <- app_assoc.
Qed.

Lemma length_flat_rows (frag : fragment_t) (l : list edge_t) :
  length (flat_map (λ e, [Gid2Oid frag e.1; Gid2Oid frag e.2]) l) = 2 * length l.
Proof. induction l as [|e l IH]; simpl; [done|]. rewrite IH. lia. Qed.

Lemma rows_of_flat_rows (frag : fragment_t) (l : list edge_t) :
  rows_of (flat_map (λ e, [Gid2Oid frag e.1; Gid2Oid frag e.2]) l) =
  row_of frag <$> l.
Proof. induction l as [|e l IH]; simpl; [done|]. by rewrite IH. Qed.

Lemma lookup_flat_rows (frag : fragment_t) (l : list edge_t) (k : nat) (e : edge_t) :
  l !! k = Some e →
  flat_map (λ e, [Gid2Oid frag e.1; Gid2Oid frag e.2]) l !! (2 * k)
    = Some (Gid2Oid frag e.1) ∧
  flat_map (λ e, [Gid2Oid frag e.1; Gid2Oid frag e.2]) l !! (2 * k + 1)
    = Some (Gid2Oid frag e.2).
Proof.
  revert k. induction l as [|e' l IH]; intros k Hk; [done|].
  destruct k as [|k]; simpl in *.
  - by injection Hk as ->.
  - replace (k + S (k + 0)) with (S (2 * k)) by lia.
    replace (k + S (k + 0) + 1) with (S (2 * k + 1)) by lia.
    simpl. apply IH, Hk.
Qed.

Lemma writeToCtx_eq (frag : fragment_t) (ctx : context_t) :
  writeToCtx frag ctx =
  {| nbunch1 := nbunch1 ctx; nbunch2 := nbunch2 ctx; boundary := boundary ctx;
     assigned := result_tensor frag (boundary ctx) :: assigned ctx |}.
Proof.
  unfold writeToCtx, assign, result_tensor.
  cbv zeta. rewrite writeToCtx_data_aux, app_nil_l, length_flat_rows.
  unfold set_iter_edge. rewrite (length_set_iter pair_le).
  by rewrite (Nat.mul_comm 2), Nat.div_mul.
Qed.

(** ** The initial superstep *)

Section Round.
Variable parseJson : string → result (list oid_t).

Lemma resolve_2_eq (frag : fragment_t) (ctx : context_t) :
  resolve_2 parseJson frag ctx =
  l ← parse_2 parseJson (nbunch2 ctx); Ok (resolve frag l).
Proof. unfold resolve_2, parse_2. by case_decide. Qed.

Lemma PEval_scan_Ok (frag : fragment_t) (ctx : context_t) (l1 l2 : list oid_t) :
  parseJson (nbunch1 ctx) = Ok l1 →
  parse_2 parseJson (nbunch2 ctx) = Ok l2 →
  PEval_scan parseJson frag ctx =
  Ok (set_boundary (scan frag (resolve frag l1) (resolve frag l2) (boundary ctx)) ctx).
Proof.
  intros H1 H2. unfold PEval_scan. rewrite H1. simpl.
  rewrite resolve_2_eq, H2. reflexivity.
Qed.

(** The scan touches nothing but the boundary. *)
Lemma PEval_scan_frame (frag : fragment_t) (ctx ctx' : context_t) :
  PEval_scan parseJson frag ctx = Ok ctx' →
  nbunch1 ctx' = nbunch1 ctx ∧ nbunch2 ctx' = nbunch2 ctx ∧
  assigned ctx' = assigned ctx ∧ boundary ctx ⊆ boundary ctx'.
Proof.
  unfold PEval_scan. destruct (parseJson (nbunch1 ctx)) as [l1|]; [simpl|done].
  destruct (resolve_2 parseJson frag ctx) as [s2|]; [simpl|done].
  intros [= <-]. simpl. repeat split; try done.
  intros [g n] Hb. apply elem_of_scan. by left.
Qed.

Lemma PEval_round_eq (ws : list worker) :
  PEval_round parseJson ws =
  ctxs ← scans parseJson ws; Ok (zip_with (finish (AllGather ctxs)) ws ctxs).
Proof. reflexivity. Qed.

Lemma scans_Ok (ws : list worker) (ctxs : list context_t) :
  scans parseJson ws = Ok ctxs ↔
  Forall2 (λ w ctx, PEval_scan parseJson (w_frag w) (w_ctx w) = Ok ctx) ws ctxs.
Proof. unfold scans. by rewrite sequence_Ok, Forall2_fmap_l. Qed.

Lemma scans_lookup (ws : list worker) (ctxs : list context_t) i w :
  scans parseJson ws = Ok ctxs → ws !! i = Some w →
  ∃ ctx, ctxs !! i = Some ctx ∧ PEval_scan parseJson (w_frag w) (w_ctx w) = Ok ctx.
Proof.
  intros Hs%scans_Ok Hw.
  destruct (Forall2_lookup_l _ _ _ _ _ Hs Hw) as (ctx & ? & ?). eauto.
Qed.

Lemma scans_length (ws : list worker) (ctxs : list context_t) :
  scans parseJson ws = Ok ctxs → length ctxs = length ws.
Proof. intros Hs%scans_Ok. symmetry. by eapply Forall2_length. Qed.

(** A fresh query: every worker starts from [init_ctx] and scans to its
    Partial Boundary. *)
Lemma scans_fresh (frags : list fragment_t) (s1 s2 : string) (l1 l2 : list oid_t) :
  parseJson s1 = Ok l1 → parse_2 parseJson s2 = Ok l2 →
  scans parseJson (init_workers frags s1 s2) =
  Ok ((λ f, set_boundary (partial_boundary f l1 l2) (init_ctx s1 s2)) <$> frags).
Proof.
  intros H1 H2. apply scans_Ok. unfold init_workers.
  apply Forall2_fmap_l, Forall2_fmap_r, Forall_Forall2_diag, Forall_forall.
  intros f _. simpl. by apply PEval_scan_Ok.
Qed.

Lemma AllGather_fresh (frags : list fragment_t) (s1 s2 : string) (l1 l2 : list oid_t) :
  AllGather ((λ f, set_boundary (partial_boundary f l1 l2) (init_ctx s1 s2)) <$> frags)
  = (λ f, partial_boundary f l1 l2) <$> frags.
Proof. unfold AllGather. rewrite <- list_fmap_compose. reflexivity. Qed.
End Round.

(** The coordinator of a fresh query ends with the Merged Boundary. *)
Lemma final_output_eq (parseJson : string → result (list oid_t))
    (f0 : fragment_t) (rest : list fragment_t) (s1 s2 : string)
    (l1 l2 : list oid_t) :
  fid f0 = 0 → parseJson s1 = Ok l1 → parse_2 parseJson s2 = Ok l2 →
  final_output parseJson (f0 :: rest) s1 s2 =
  Ok (Some (result_tensor f0 (merged_boundary (f0 :: rest) l1 l2))).
Proof.
  intros Hf H1 H2. unfold final_output.
  rewrite PEval_round_eq, (scans_fresh _ _ _ _ _ _ H1 H2). simpl.
  unfold PEval_merge. rewrite decide_True by done.
  rewrite writeToCtx_eq. simpl. unfold output. simpl. do 3 f_equal.
  unfold AllGather. simpl. rewrite merge_gathered_all.
  unfold merged_boundary. simpl. do 2 f_equal.
  rewrite <- list_fmap_compose. reflexivity.
Qed.

Lemma rows_of_result_tensor (frag : fragment_t) (b : gset edge_t) :
  rows_of (t_data (result_tensor frag b)) = row_of frag <$> set_iter_edge b.
Proof. apply rows_of_flat_rows. Qed.

Lemma elem_of_rows (frag : fragment_t) (b : gset edge_t) (u v : oid_t) :
  (u, v) ∈ rows_of (t_data (result_tensor frag b)) ↔
  ∃ g n, (g, n) ∈ b ∧ u = Gid2Oid frag g ∧ v = Gid2Oid frag n.
Proof.
  rewrite rows_of_result_tensor, list_elem_of_fmap. unfold row_of. split.
  - intros ([g n] & [= -> ->] & He%elem_of_set_iter_edge). by exists g, n.
  - intros (g & n & He & -> & ->). exists (g, n).
    split; [done|]. by apply elem_of_set_iter_edge.
Qed.

(** ** Fragmentations *)

Section Partition.
Variables (G : graph) (frags : list fragment_t) (f0 : fragment_t).
Hypothesis HF : Fragmentation G frags.
Hypothesis H0 : frags !! 0 = Some f0.
Variables (l1 l2 : list oid_t).

Lemma coordinator_elem_of : f0 ∈ frags.
Proof. by eapply list_elem_of_lookup_2. Qed.

Lemma frag_resolve (f : fragment_t) (l : list oid_t) :
  f ∈ frags → resolve f l = resolve f0 l.
Proof.
  intros Hf. apply set_eq. intros g. rewrite !elem_of_resolve.
  pose proof coordinator_elem_of as Hc.
  split; intros (o & ? & Ho); exists o; split; try done.
  - by rewrite <- (frag_vm_shared _ _ HF f f0 o Hf Hc).
  - by rewrite (frag_vm_shared _ _ HF f f0 o Hf Hc).
Qed.

Lemma frag_gid_edge (f : fragment_t) (g n : N) :
  f ∈ frags → gid_edge G f g n ↔ gid_edge G f0 g n.
Proof.
  intros Hf. pose proof coordinator_elem_of as Hc. unfold gid_edge.
  split; intros (ou & ov & ? & Hu & Hv); exists ou, ov; split_and!; try done.
  - by rewrite <- (frag_vm_shared _ _ HF f f0 ou Hf Hc).
  - by rewrite <- (frag_vm_shared _ _ HF f f0 ov Hf Hc).
  - by rewrite (frag_vm_shared _ _ HF f f0 ou Hf Hc).
  - by rewrite (frag_vm_shared _ _ HF f f0 ov Hf Hc).
Qed.

(** The Merged Boundary in global identifiers. *)
Lemma elem_of_merged_boundary (g n : N) :
  (g, n) ∈ merged_boundary frags l1 l2 ↔
  g ∈ resolve f0 l1 ∧ gid_edge G f0 g n ∧
  admits (resolve f0 l1) (resolve f0 l2) n.
Proof.
  unfold merged_boundary. rewrite elem_of_union_list. split.
  - intros (X & (f & -> & Hf)%list_elem_of_fmap & Hp).
    unfold partial_boundary in Hp. rewrite !(frag_resolve f) in Hp by done.
    apply elem_of_scan in Hp as [?|(Hg & u & e & Hu & He & Hn & Ha)]; [set_solver|].
    split_and!; try done. apply (frag_gid_edge f); [done|].
    apply (frag_adj _ _ HF f g u n Hf Hu). eauto.
  - intros (Hg & Hedge & Ha).
    pose proof coordinator_elem_of as Hc.
    destruct (proj1 (elem_of_resolve _ _ _) Hg) as (o & _ & Ho).
    destruct (frag_owner _ _ HF f0 o g Hc Ho) as (f & Hf & u & Hu).
    exists (partial_boundary f l1 l2). split.
    + apply list_elem_of_fmap. eauto.
    + unfold partial_boundary. rewrite !(frag_resolve f) by done.
      apply elem_of_scan. right. split; [done|].
      apply (frag_gid_edge f) in Hedge; [|done].
      apply (frag_adj _ _ HF f g u n Hf Hu) in Hedge as (e & ? & ?).
      by exists u, e.
Qed.

(** No identifier of the list is a vertex exactly when the resolved set is
    empty. *)
Lemma resolve_empty_iff (l : list oid_t) :
  resolve f0 l = ∅ ↔ Forall (λ o, o ∉ vertices G) l.
Proof.
  pose proof coordinator_elem_of as Hc.
  rewrite <- resolve_all_fail, Forall_forall. split; intros Hl o Ho.
  - rewrite <- (frag_vm_dom _ _ HF f0 o Hc), (Hl o Ho). by intros [? ?].
  - specialize (Hl o Ho). rewrite <- (frag_vm_dom _ _ HF f0 o Hc) in Hl.
    destruct (Oid2Gid f0 o); [|done]. exfalso. eauto.
Qed.

(** The rows of the result in external identifiers. *)
Lemma elem_of_result_rows (u v : oid_t) :
  (u, v) ∈ rows_of (t_data (result_tensor f0 (merged_boundary frags l1 l2))) ↔
  (u, v) ∈ edges G ∧ u ∈ l1 ∧
  if decide (Forall (λ o, o ∉ vertices G) l2) then v ∉ l1 else v ∈ l2.
Proof.
  pose proof coordinator_elem_of as Hc.
  pose proof (frag_vm_inv _ _ HF f0) as Hinv.
  rewrite elem_of_rows. split.
  - intros (g & n & (Hg & (ou & ov & He & Hu & Hv) & Ha)%elem_of_merged_boundary
              & -> & ->).
    rewrite (Hinv ou g Hc Hu), (Hinv ov n Hc Hv). split_and!; [done| |].
    + apply elem_of_resolve in Hg as (o & Ho & Hog).
      by rewrite <- (Hinv o g Hc Hog), (Hinv ou g Hc Hu) in Ho.
    + unfold admits in Ha. destruct (decide (Forall _ l2)) as [Hd|Hd].
      * rewrite decide_True in Ha by (by apply resolve_empty_iff).
        intros Hv1. apply Ha, elem_of_resolve. eauto.
      * rewrite decide_False in Ha by (by rewrite resolve_empty_iff).
        apply elem_of_resolve in Ha as (o & Ho & Hon).
        by rewrite <- (Hinv o n Hc Hon), (Hinv ov n Hc Hv) in Ho.
  - intros (He & Hu & Hr).
    destruct (frag_endpoints _ _ HF u v He) as [Hvu Hvv].
    apply (frag_vm_dom _ _ HF f0 u Hc) in Hvu as [g Hg].
    apply (frag_vm_dom _ _ HF f0 v Hc) in Hvv as [n Hn].
    exists g, n. rewrite (Hinv u g Hc Hg), (Hinv v n Hc Hn).
    split; [|done]. apply elem_of_merged_boundary. split_and!.
    + apply elem_of_resolve. eauto.
    + by exists u, v.
    + unfold admits. destruct (decide (Forall _ l2)) as [Hd|Hd].
      * rewrite decide_True by (by apply resolve_empty_iff).
        intros (o & Ho & Hon)%elem_of_resolve.
        by rewrite <- (Hinv o n Hc Hon), (Hinv v n Hc Hn) in Ho.
      * rewrite decide_False by (by rewrite resolve_empty_iff).
        apply elem_of_resolve. eauto.
Qed.
End Partition.

(** ** The fragment builder *)

Section Builder.
Variables (G : graph) (L : layout).
Hypothesis HL : valid_layout G L.

Lemma mk_vm_lookup (o : oid_t) (g : N) :
  (list_to_map (lay_vm L) : gmap Z N) !! o = Some g ↔ (o, g) ∈ lay_vm L.
Proof.
  destruct HL as (Hn1 & _). symmetry. by apply elem_of_list_to_map.
Qed.

Lemma mk_rvm_lookup (o : oid_t) (g : N) :
  (list_to_map (prod_swap <$> lay_vm L) : gmap N Z) !! g = Some o ↔
  (o, g) ∈ lay_vm L.
Proof.
  destruct HL as (_ & Hn2 & _).
  rewrite <- elem_of_list_to_map.
  - rewrite list_elem_of_fmap. split.
    + intros ([o' g'] & [= -> ->] & ?). done.
    + intros ?. by exists (o, g).
  - rewrite <- list_fmap_compose.
    by replace (fst ∘ prod_swap) with (@snd Z N) by done.
Qed.

Lemma mk_fragments_elem_of (f : fragment_t) :
  f ∈ mk_fragments G L ↔ ∃ i, i < lay_fnum L ∧ f = mk_fragment G L i.
Proof.
  unfold mk_fragments. rewrite list_elem_of_fmap. split.
  - intros (i & -> & Hi%elem_of_seq). exists i. split; [lia|done].
  - intros (i & Hi & ->). exists i. split; [done|]. apply elem_of_seq. lia.
Qed.

Lemma mk_fragments_Fragmentation : Fragmentation G (mk_fragments G L).
Proof.
  pose proof HL as (Hn1 & Hn2 & Hv1 & Hv2 & He & Ho & Hp).
  rewrite Forall_forall in Hv1. rewrite Forall_forall in Hv2.
  rewrite Forall_forall in He. rewrite Forall_forall in Ho.
  split.
  - intros i f. unfold mk_fragments. rewrite list_lookup_fmap.
    intros Hi. apply fmap_Some in Hi as (j & Hj & ->).
    apply lookup_seq in Hj as [-> _]. reflexivity.
  - unfold mk_fragments. destruct (lay_fnum L); [lia|]. simpl. eauto.
  - intros u v Huv. apply (He (u, v) Huv).
  - intros f o (i & _ & ->)%mk_fragments_elem_of. simpl. split.
    + intros [g Hg%mk_vm_lookup]. apply Hv2, list_elem_of_fmap.
      by exists (o, g).
    + intros Ho'. apply Hv1 in Ho'.
      apply list_elem_of_fmap in Ho' as ([o' g] & -> & Hg).
      exists g. by apply mk_vm_lookup.
  - intros f f' o (i & _ & ->)%mk_fragments_elem_of
                  (i' & _ & ->)%mk_fragments_elem_of. reflexivity.
  - intros f o g (i & _ & ->)%mk_fragments_elem_of. simpl.
    intros Hg%mk_vm_lookup%mk_rvm_lookup. by rewrite Hg.
  - intros f o g (i & _ & ->)%mk_fragments_elem_of. simpl.
    intros Hg%mk_vm_lookup.
    exists (mk_fragment G L (lay_owner L g)). split.
    + apply mk_fragments_elem_of. exists (lay_owner L g). split; [|done].
      apply Ho, list_elem_of_fmap. by exists (o, g).
    + simpl. rewrite decide_True; [eauto|]. split; [done|].
      exists o. by apply mk_rvm_lookup.
  - intros f g u n (i & _ & ->)%mk_fragments_elem_of. simpl.
    case_decide as Hd; [|done]. intros [= <-]. split.
    + intros (e & (p & Hp' & Hf)%list_elem_of_omap & <-).
      destruct p as [ou ov]. simpl in Hf. case_decide as Hu; [|done].
      apply fmap_Some in Hf as (n & Hn & ->). simpl. by exists ou, ov.
    + intros (ou & ov & Hedge & Hu & Hv).
      exists {| get_neighbor := n |}. split; [|done].
      apply list_elem_of_omap. exists (ou, ov). split; [done|]. simpl.
      rewrite decide_True by done. by rewrite Hv.
Qed.
End Builder.

Lemma exL_valid : valid_layout exG exL.
Proof. apply (bool_decide_unpack _). vm_compute. exact I. Qed.

Lemma exL'_valid : valid_layout exG exL'.
Proof. apply (bool_decide_unpack _). vm_compute. exact I. Qed.

Lemma exFrags_Fragmentation : Fragmentation exG exFrags.
Proof. apply mk_fragments_Fragmentation, exL_valid. Qed.

Lemma exFrags'_Fragmentation : Fragmentation exG exFrags'.
Proof. apply mk_fragments_Fragmentation, exL'_valid. Qed.

(** ** Fresh queries *)

Section Fresh.
Variable parseJson : string → result (list oid_t).
Variables (frags : list fragment_t) (s1 s2 : string) (l1 l2 : list oid_t).
Hypothesis Hs1 : parseJson s1 = Ok l1.
Hypothesis Hs2 : parse_2 parseJson s2 = Ok l2.

Lemma PEval_round_fresh :
  PEval_round parseJson (init_workers frags s1 s2) =
  Ok (fresh_worker s1 s2 l1 l2 frags <$> frags).
Proof.
  rewrite PEval_round_eq, (scans_fresh _ _ _ _ _ _ Hs1 Hs2). simpl.
  rewrite AllGather_fresh. unfold init_workers.
  rewrite zip_with_fmap_l, zip_with_fmap_r, zip_with_diag. reflexivity.
Qed.

Lemma PEval_scan_fresh (f : fragment_t) :
  PEval_scan parseJson f (init_ctx s1 s2) =
  Ok (set_boundary (partial_boundary f l1 l2) (init_ctx s1 s2)).
Proof. by apply PEval_scan_Ok. Qed.
End Fresh.

Lemma obs_fresh_worker (s1 s2 : string) (l1 l2 : list oid_t)
    (frags : list fragment_t) (f : fragment_t) :
  obs (fresh_worker s1 s2 l1 l2 frags f) =
  if decide (fid f = 0) then
    let b := merge_gathered (partial_boundary f l1 l2)
                            ((λ f, partial_boundary f l1 l2) <$> frags) in
    (b, [result_tensor f b])
  else (partial_boundary f l1 l2, []).
Proof.
  unfold obs, fresh_worker, finish, PEval_merge. simpl.
  case_decide; [|done]. by rewrite writeToCtx_eq.
Qed.

(** The inputs act on the outcome only through the Partial Boundaries. *)
Lemma obs_fresh_ext (s1 s2 s1' s2' : string) (l1 l2 l1' l2' : list oid_t)
    (frags : list fragment_t) :
  (∀ f, f ∈ frags → partial_boundary f l1 l2 = partial_boundary f l1' l2') →
  obs <$> (fresh_worker s1 s2 l1 l2 frags <$> frags) =
  obs <$> (fresh_worker s1' s2' l1' l2' frags <$> frags).
Proof.
  intros Hp. rewrite <- !list_fmap_compose.
  assert ((λ f, partial_boundary f l1 l2) <$> frags =
          (λ f, partial_boundary f l1' l2') <$> frags) as Hall.
  { apply Forall_fmap_ext_1, Forall_forall. intros f Hf. by apply Hp. }
  apply Forall_fmap_ext_1, Forall_forall. intros f Hf. simpl.
  by rewrite !obs_fresh_worker, Hall, (Hp f Hf).
Qed.

(** ** The examples of the specification *)

Example spec_example_complement :
  final_output example_parseJson exFrags "[1,2]" EmptyString =
  Ok (Some {| t_data := [1; 3; 2; 3]%Z; t_shape := [2; 2] |}).
Proof. vm_compute. reflexivity. Qed.

Example spec_example_targeted :
  final_output example_parseJson exFrags "[1,2]" "[3]" =
  Ok (Some {| t_data := [1; 3; 2; 3]%Z; t_shape := [2; 2] |}).
Proof. vm_compute. reflexivity. Qed.

Example spec_example_targeted_empty :
  final_output example_parseJson exFrags "[1,2]" "[4]" =
  Ok (Some {| t_data := []; t_shape := [0; 2] |}).
Proof. vm_compute. reflexivity. Qed.

Example spec_example_absent_identifier :
  final_output example_parseJson exFrags "[1,2,77]" EmptyString =
  Ok (Some {| t_data := [1; 3; 2; 3]%Z; t_shape := [2; 2] |}).
Proof. vm_compute. reflexivity. Qed.

Example spec_example_malformed :
  final_output example_parseJson exFrags "[1,2" EmptyString = ParseError.
Proof. vm_compute. reflexivity. Qed.

(** * The claims *)

(** C1.  Complement mode: for a fresh query whose second subset is the empty
    string, every fragment's scan succeeds and its Partial Boundary holds
    the pair (g, n) exactly when g is in the resolved first subset, g is an
    inner vertex of the fragment, n is the global identifier of an outgoing
    neighbour of g and n is not in the resolved first subset; and over a
    fragmentation of the graph G the coordinator's output exists and its rows
    are exactly the edges (u, v) of G with u in the first subset and v not
    in it. *)
Theorem complement_mode_correct (parseJson : string → result (list oid_t))
    (G : graph) (frags : list fragment_t) (s1 : string) (l1 : list oid_t) :
  Fragmentation G frags →
  parseJson s1 = Ok l1 →
  (∀ f, ∃ ctx, PEval_scan parseJson f (init_ctx s1 EmptyString) = Ok ctx ∧
     ∀ g n, (g, n) ∈ boundary ctx ↔
       g ∈ resolve f l1 ∧
       ∃ u e, InnerVertexGid2Vertex f g = Some u ∧
              e ∈ GetOutgoingAdjList f u ∧
              Vertex2Gid f (get_neighbor e) = n ∧ n ∉ resolve f l1) ∧
  ∃ T, final_output parseJson frags s1 EmptyString = Ok (Some T) ∧
     ∀ u v, (u, v) ∈ rows_of (t_data T) ↔
            (u, v) ∈ edges G ∧ u ∈ l1 ∧ v ∉ l1.
Proof.
  intros HF H1.
  assert (parse_2 parseJson EmptyString = Ok []) as H2 by done.
  split.
  - intros f. eexists. split; [by apply PEval_scan_fresh|].
    intros g n. simpl. unfold partial_boundary. rewrite elem_of_scan.
    unfold admits. simpl. rewrite decide_True by done. set_solver.
  - destruct (frag_coordinator _ _ HF) as [f0 H0].
    destruct frags as [|f0' rest]; [done|]. injection H0 as ->.
    exists (result_tensor f0 (merged_boundary (f0 :: rest) l1 [])). split.
    + apply final_output_eq; [|done..]. by apply (frag_fid _ _ HF 0).
    + intros u v. rewrite (elem_of_result_rows G (f0 :: rest) f0 HF); [|done].
      by rewrite decide_True by constructor.
Qed.

Lemma complement_mode_correct_witness :
  Fragmentation exG exFrags ∧ example_parseJson "[1,2]" = Ok [1; 2]%Z ∧
  ∃ T, final_output example_parseJson exFrags "[1,2]" EmptyString = Ok (Some T) ∧
     ∀ u v, (u, v) ∈ rows_of (t_data T) ↔
            (u, v) ∈ edges exG ∧ u ∈ [1; 2]%Z ∧ v ∉ [1; 2]%Z.
Proof.
  split; [exact exFrags_Fragmentation|]. split; [reflexivity|].
  apply (complement_mode_correct example_parseJson exG exFrags "[1,2]" [1; 2]%Z
           exFrags_Fragmentation eq_refl).
Defined.

(** C2, as stated, fails: with the first subset {1, 2} and the second subset
    {99}, which is not empty but names no vertex of the graph, the result
    holds the row (1, 3), which is no edge into the second subset. *)
Lemma targeted_mode_counterexample :
  Fragmentation exG exFrags ∧
  example_parseJson "[1,2]" = Ok [1; 2]%Z ∧
  example_parseJson "[99]" = Ok [99]%Z ∧
  final_output example_parseJson exFrags "[1,2]" "[99]" =
    Ok (Some {| t_data := [1; 3; 2; 3]%Z; t_shape := [2; 2] |}) ∧
  (1, 3)%Z ∈ rows_of [1; 3; 2; 3]%Z ∧
  ¬ ((1, 3)%Z ∈ edges exG ∧ 1%Z ∈ [1; 2]%Z ∧ 3%Z ∈ [99]%Z).
Proof.
  split; [exact exFrags_Fragmentation|].
  split; [reflexivity|]. split; [reflexivity|].
  split; [vm_compute; reflexivity|].
  split; [simpl; left|].
  intros (_ & _ & H). apply list_elem_of_singleton in H. discriminate H.
Qed.

(** C2, amended.  Targeted mode: for a fresh query whose second subset
    resolves to a non-empty set, every fragment's scan succeeds and its
    Partial Boundary holds the pair (g, n) exactly when g is in the resolved
    first subset, g is an inner vertex of the fragment, n is the global
    identifier of an outgoing neighbour of g and n is in the resolved second
    subset; and over a fragmentation of the graph G, when some identifier of
    the second subset is a vertex of G, the coordinator's output exists and
    its rows are exactly the edges (u, v) of G with u in the first subset and
    v in the second. *)
Theorem targeted_mode_correct (parseJson : string → result (list oid_t))
    (G : graph) (frags : list fragment_t) (s1 s2 : string)
    (l1 l2 : list oid_t) :
  Fragmentation G frags →
  parseJson s1 = Ok l1 →
  s2 ≠ EmptyString →
  parseJson s2 = Ok l2 →
  (∃ o, o ∈ l2 ∧ o ∈ vertices G) →
  (∀ f, resolve f l2 ≠ ∅ →
     ∃ ctx, PEval_scan parseJson f (init_ctx s1 s2) = Ok ctx ∧
     ∀ g n, (g, n) ∈ boundary ctx ↔
       g ∈ resolve f l1 ∧
       ∃ u e, InnerVertexGid2Vertex f g = Some u ∧
              e ∈ GetOutgoingAdjList f u ∧
              Vertex2Gid f (get_neighbor e) = n ∧ n ∈ resolve f l2) ∧
  ∃ T, final_output parseJson frags s1 s2 = Ok (Some T) ∧
     ∀ u v, (u, v) ∈ rows_of (t_data T) ↔
            (u, v) ∈ edges G ∧ u ∈ l1 ∧ v ∈ l2.
Proof.
  intros HF H1 Hne Hp (o & Ho & Hv).
  assert (parse_2 parseJson s2 = Ok l2) as H2.
  { unfold parse_2. by rewrite decide_False. }
  split.
  - intros f Hf. eexists. split; [by apply PEval_scan_fresh|].
    intros g n. simpl. unfold partial_boundary. rewrite elem_of_scan.
    unfold admits. rewrite decide_False by done. set_solver.
  - destruct (frag_coordinator _ _ HF) as [f0 H0].
    destruct frags as [|f0' rest]; [done|]. injection H0 as ->.
    exists (result_tensor f0 (merged_boundary (f0 :: rest) l1 l2)). split.
    + apply final_output_eq; [|done..]. by apply (frag_fid _ _ HF 0).
    + intros u v. rewrite (elem_of_result_rows G (f0 :: rest) f0 HF); [|done].
      rewrite decide_False; [done|].
      rewrite Forall_forall. intros Hall. by apply (Hall o).
Qed.

Lemma targeted_mode_correct_witness :
  Fragmentation exG exFrags ∧ example_parseJson "[1,2]" = Ok [1; 2]%Z ∧
  "[3]" ≠ EmptyString ∧ example_parseJson "[3]" = Ok [3]%Z ∧
  (∃ o, o ∈ [3]%Z ∧ o ∈ vertices exG) ∧
  ∃ T, final_output example_parseJson exFrags "[1,2]" "[3]" = Ok (Some T) ∧
     ∀ u v, (u, v) ∈ rows_of (t_data T) ↔
            (u, v) ∈ edges exG ∧ u ∈ [1; 2]%Z ∧ v ∈ [3]%Z.
Proof.
  assert (∃ o, o ∈ [3]%Z ∧ o ∈ vertices exG) as Hv.
  { exists 3%Z. split; [by left|]. simpl. by do 2 right; left. }
  split; [exact exFrags_Fragmentation|]. split; [reflexivity|].
  split; [discriminate|]. split; [reflexivity|]. split; [exact Hv|].
  apply (targeted_mode_correct example_parseJson exG exFrags "[1,2]" "[3]"
           [1; 2]%Z [3]%Z exFrags_Fragmentation eq_refl
           ltac:(discriminate) eq_refl Hv).
Defined.

(** In a fresh query over a fragmentation, worker 0 and only worker 0 has
    fragment identifier 0. *)
Lemma init_workers_fid (G : graph) (frags : list fragment_t) (s1 s2 : string) :
  Fragmentation G frags →
  ∀ i w, init_workers frags s1 s2 !! i = Some w → fid (w_frag w) = 0 ↔ i = 0.
Proof.
  intros HF i w. unfold init_workers. rewrite list_lookup_fmap.
  intros Hw. apply fmap_Some in Hw as (f & Hf & ->). simpl.
  by rewrite (frag_fid _ _ HF i f Hf).
Qed.

(** C3.  When every worker has reached the collective gather (its scan has
    succeeded, leaving the context [ctxs !! i] whose boundary is the Partial
    Boundary of worker i) and worker 0 alone has fragment identifier 0, the
    initial phase succeeds, worker 0 ends with the union of the Partial
    Boundaries of all workers, its own included, and every other worker ends
    with its own Partial Boundary and nothing else. *)
Theorem coordinator_holds_merged_boundary
    (parseJson : string → result (list oid_t))
    (ws : list worker) (ctxs : list context_t) :
  (∀ i w, ws !! i = Some w → fid (w_frag w) = 0 ↔ i = 0) →
  scans parseJson ws = Ok ctxs →
  ∃ ws', PEval_round parseJson ws = Ok ws' ∧ length ws' = length ws ∧
    ∀ i w', ws' !! i = Some w' →
      ∃ ctx, ctxs !! i = Some ctx ∧
        if decide (i = 0)
        then boundary (w_ctx w') = ⋃ (boundary <$> ctxs)
        else boundary (w_ctx w') = boundary ctx.
Proof.
  intros Hfid Hs. eexists. split; [by rewrite PEval_round_eq, Hs|].
  split.
  { rewrite length_zip_with_l_eq; [done|]. symmetry. by eapply scans_length. }
  intros i w' (w & ctx & -> & Hw & Hc)%lookup_zip_with_Some.
  exists ctx. split; [done|]. simpl. unfold PEval_merge.
  specialize (Hfid i w Hw). case_decide as Hi.
  - subst i. rewrite decide_True by tauto. rewrite writeToCtx_eq. simpl.
    destruct ctxs as [|c0 rest]; [done|]. injection Hc as ->.
    unfold AllGather. simpl. apply merge_gathered_all.
  - rewrite decide_False by tauto. reflexivity.
Qed.

Lemma coordinator_holds_merged_boundary_witness :
  let ws := init_workers exFrags' "[1,2]" EmptyString in
  let ctxs := (λ f, set_boundary (partial_boundary f [1; 2]%Z [])
                                 (init_ctx "[1,2]" EmptyString)) <$> exFrags' in
  ∃ ws', PEval_round example_parseJson ws = Ok ws' ∧ length ws' = length ws ∧
    ∀ i w', ws' !! i = Some w' →
      ∃ ctx, ctxs !! i = Some ctx ∧
        if decide (i = 0)
        then boundary (w_ctx w') = ⋃ (boundary <$> ctxs)
        else boundary (w_ctx w') = boundary ctx.
Proof.
  intros ws ctxs.
  apply (coordinator_holds_merged_boundary example_parseJson ws ctxs).
  - exact (init_workers_fid exG exFrags' "[1,2]" EmptyString exFrags'_Fragmentation).
  - exact (scans_fresh example_parseJson exFrags' "[1,2]" EmptyString [1; 2]%Z []
             eq_refl eq_refl).
Defined.

(** C4.  When every worker has reached the collective gather, the initial
    phase succeeds and leaves a worker whose fragment identifier is not 0
    with exactly the context it had at the gather: its boundary is its
    Partial Boundary, whatever the peers contributed, and the log of its
    output slot is the one it started with. *)
Theorem non_coordinator_keeps_partial_boundary
    (parseJson : string → result (list oid_t))
    (ws : list worker) (ctxs : list context_t) :
  scans parseJson ws = Ok ctxs →
  ∃ ws', PEval_round parseJson ws = Ok ws' ∧
    ∀ i w, ws !! i = Some w → fid (w_frag w) ≠ 0 →
      ∃ ctx, ctxs !! i = Some ctx ∧
        PEval_scan parseJson (w_frag w) (w_ctx w) = Ok ctx ∧
        (∀ all_boundary, PEval_merge (w_frag w) ctx all_boundary = ctx) ∧
        ws' !! i = Some {| w_frag := w_frag w; w_ctx := ctx; w_msgs := w_msgs w |} ∧
        assigned ctx = assigned (w_ctx w) ∧
        output ctx = output (w_ctx w).
Proof.
  intros Hs. eexists. split; [by rewrite PEval_round_eq, Hs|].
  intros i w Hw Hfid.
  destruct (scans_lookup _ _ _ _ _ Hs Hw) as (ctx & Hc & Hscan).
  exists ctx. split; [done|]. split; [done|].
  assert (∀ all_boundary, PEval_merge (w_frag w) ctx all_boundary = ctx) as Hm.
  { intros all_boundary. unfold PEval_merge. by rewrite decide_False. }
  split; [done|].
  destruct (PEval_scan_frame _ _ _ _ Hscan) as (_ & _ & Ha & _).
  split; [|split; [done|by unfold output; rewrite Ha]].
  apply lookup_zip_with_Some. exists w, ctx. split_and!; try done.
  unfold finish. by rewrite Hm.
Qed.

Lemma non_coordinator_keeps_partial_boundary_witness :
  let ws := init_workers exFrags' "[1,2]" EmptyString in
  let ctxs := (λ f, set_boundary (partial_boundary f [1; 2]%Z [])
                                 (init_ctx "[1,2]" EmptyString)) <$> exFrags' in
  scans example_parseJson ws = Ok ctxs ∧
  ∃ ws', PEval_round example_parseJson ws = Ok ws' ∧
    ∀ i w, ws !! i = Some w → fid (w_frag w) ≠ 0 →
      ∃ ctx, ctxs !! i = Some ctx ∧
        PEval_scan example_parseJson (w_frag w) (w_ctx w) = Ok ctx ∧
        (∀ all_boundary, PEval_merge (w_frag w) ctx all_boundary = ctx) ∧
        ws' !! i = Some {| w_frag := w_frag w; w_ctx := ctx; w_msgs := w_msgs w |} ∧
        assigned ctx = assigned (w_ctx w) ∧
        output ctx = output (w_ctx w).
Proof.
  intros ws ctxs.
  assert (scans example_parseJson ws = Ok ctxs) as Hs.
  { exact (scans_fresh example_parseJson exFrags' "[1,2]" EmptyString [1; 2]%Z []
             eq_refl eq_refl). }
  split; [exact Hs|].
  exact (non_coordinator_keeps_partial_boundary example_parseJson ws ctxs Hs).
Defined.

(** C5.  [writeToCtx] calls [assign] once: the log of the output slot grows
    by one tensor and nothing else in the context changes.  The tensor's
    shape is [edge_count; 2] with edge_count the number of pairs of the
    boundary, its data has twice as many entries, and row k of the data is
    the k-th pair of the boundary, in the set's iteration order, with source
    and destination translated back to external identifiers.  The iteration
    lists every pair of the boundary once, in ascending order.  In [PEval] the coordinator, and
    no other worker, does this once, on the boundary it has merged. *)
Theorem writeToCtx_materializes (frag : fragment_t) (ctx : context_t) :
  ∃ T,
    assigned (writeToCtx frag ctx) = T :: assigned ctx ∧
    output (writeToCtx frag ctx) = Some T ∧
    boundary (writeToCtx frag ctx) = boundary ctx ∧
    nbunch1 (writeToCtx frag ctx) = nbunch1 ctx ∧
    nbunch2 (writeToCtx frag ctx) = nbunch2 ctx ∧
    t_shape T = [size (boundary ctx); 2] ∧
    length (t_data T) = 2 * size (boundary ctx) ∧
    rows_of (t_data T) = row_of frag <$> set_iter_edge (boundary ctx) ∧
    (∀ k e, set_iter_edge (boundary ctx) !! k = Some e →
       t_data T !! (2 * k) = Some (Gid2Oid frag e.1) ∧
       t_data T !! (2 * k + 1) = Some (Gid2Oid frag e.2)) ∧
    (∀ e, e ∈ set_iter_edge (boundary ctx) ↔ e ∈ boundary ctx) ∧
    NoDup (set_iter_edge (boundary ctx)) ∧
    Sorted pair_le (set_iter_edge (boundary ctx)) ∧
    ∀ all_boundary,
      assigned (PEval_merge frag ctx all_boundary) =
      if decide (fid frag = 0)
      then [result_tensor frag (merge_gathered (boundary ctx) all_boundary)]
           ++ assigned ctx
      else assigned ctx.
Proof.
  exists (result_tensor frag (boundary ctx)). rewrite writeToCtx_eq.
  unfold output. simpl. split_and!; try done.
  - rewrite length_flat_rows. unfold set_iter_edge.
    by rewrite (length_set_iter pair_le).
  - apply rows_of_flat_rows.
  - intros k e Hk. by apply lookup_flat_rows.
  - intros e. apply elem_of_set_iter_edge.
  - apply (NoDup_set_iter pair_le).
  - apply (Sorted_set_iter pair_le).
  - intros all_boundary. unfold PEval_merge. case_decide; [|done].
    by rewrite writeToCtx_eq.
Qed.

(** Translating back is one-to-one on the pairs of the Merged Boundary. *)
Lemma row_of_inj_on_merged (G : graph) (frags : list fragment_t)
    (f0 : fragment_t) (l1 l2 : list oid_t) (e e' : edge_t) :
  Fragmentation G frags → frags !! 0 = Some f0 →
  e ∈ merged_boundary frags l1 l2 → e' ∈ merged_boundary frags l1 l2 →
  row_of f0 e = row_of f0 e' → e = e'.
Proof.
  intros HF H0 He He'. destruct e as [g n], e' as [g' n'].
  pose proof (coordinator_elem_of frags f0 H0) as Hc.
  apply (elem_of_merged_boundary G frags f0 HF H0) in He
    as (_ & (ou & ov & _ & Hu & Hv) & _).
  apply (elem_of_merged_boundary G frags f0 HF H0) in He'
    as (_ & (ou' & ov' & _ & Hu' & Hv') & _).
  unfold row_of. simpl.
  rewrite (frag_vm_inv _ _ HF f0 ou g Hc Hu), (frag_vm_inv _ _ HF f0 ov n Hc Hv),
    (frag_vm_inv _ _ HF f0 ou' g' Hc Hu'), (frag_vm_inv _ _ HF f0 ov' n' Hc Hv').
  intros [= -> ->]. congruence.
Qed.

Lemma NoDup_result_rows (G : graph) (frags : list fragment_t)
    (f0 : fragment_t) (l1 l2 : list oid_t) :
  Fragmentation G frags → frags !! 0 = Some f0 →
  NoDup (rows_of (t_data (result_tensor f0 (merged_boundary frags l1 l2)))).
Proof.
  intros HF H0. rewrite rows_of_result_tensor.
  apply NoDup_fmap_2_strong; [|apply (NoDup_set_iter pair_le)].
  intros e e' He%elem_of_set_iter_edge He'%elem_of_set_iter_edge.
  by apply (row_of_inj_on_merged G frags f0 l1 l2).
Qed.

(** C6.  For a fresh query over a fragmentation of a graph, the iteration
    over the Partial Boundary of any fragment and over the Merged Boundary
    visits no pair twice, the coordinator's output exists, holds the Merged
    Boundary, and no two of its rows are equal. *)
Theorem result_has_no_duplicates (parseJson : string → result (list oid_t))
    (G : graph) (frags : list fragment_t) (s1 s2 : string)
    (l1 l2 : list oid_t) :
  Fragmentation G frags →
  parseJson s1 = Ok l1 →
  parse_2 parseJson s2 = Ok l2 →
  (∀ f, NoDup (set_iter_edge (partial_boundary f l1 l2))) ∧
  NoDup (set_iter_edge (merged_boundary frags l1 l2)) ∧
  ∃ f0 T, frags !! 0 = Some f0 ∧
    final_output parseJson frags s1 s2 = Ok (Some T) ∧
    T = result_tensor f0 (merged_boundary frags l1 l2) ∧
    NoDup (rows_of (t_data T)).
Proof.
  intros HF H1 H2. split; [intros f; apply (NoDup_set_iter pair_le)|].
  split; [apply (NoDup_set_iter pair_le)|].
  destruct (frag_coordinator _ _ HF) as [f0 H0].
  exists f0, (result_tensor f0 (merged_boundary frags l1 l2)).
  split; [done|]. split; [|split; [done|by apply (NoDup_result_rows G)]].
  destruct frags as [|f0' rest]; [done|]. injection H0 as ->.
  apply final_output_eq; [|done..]. by apply (frag_fid _ _ HF 0).
Qed.

Lemma result_has_no_duplicates_witness :
  Fragmentation exG exFrags' ∧
  example_parseJson "[1,2,4]" = Ok [1; 2; 4]%Z ∧
  parse_2 example_parseJson "[1,3]" = Ok [1; 3]%Z ∧
  ∃ f0 T, exFrags' !! 0 = Some f0 ∧
    final_output example_parseJson exFrags' "[1,2,4]" "[1,3]" = Ok (Some T) ∧
    T = result_tensor f0 (merged_boundary exFrags' [1; 2; 4]%Z [1; 3]%Z) ∧
    NoDup (rows_of (t_data T)).
Proof.
  split; [exact exFrags'_Fragmentation|]. split; [reflexivity|].
  split; [reflexivity|].
  apply (result_has_no_duplicates example_parseJson exG exFrags'
           "[1,2,4]" "[1,3]" [1; 2; 4]%Z [1; 3]%Z
           exFrags'_Fragmentation eq_refl eq_refl).
Defined.

Lemma resolve_filter (frag : fragment_t) (oid : oid_t) (l : list oid_t) :
  Oid2Gid frag oid = None →
  resolve frag (filter (λ x, x ≠ oid) l) = resolve frag l.
Proof.
  intros Hn. apply set_eq. intros g. rewrite !elem_of_resolve.
  split.
  - intros (o & [_ Ho]%list_elem_of_filter & Hg). eauto.
  - intros (o & Ho & Hg). exists o. split; [|done].
    apply list_elem_of_filter. split; [congruence|done].
Qed.

(** The coordinator's output is part of what the workers show. *)
Lemma obs_output (ws ws' : list worker) :
  obs <$> ws = obs <$> ws' →
  (w ← ws !! 0; output (w_ctx w)) = (w ← ws' !! 0; output (w_ctx w)).
Proof.
  intros Ho. apply (f_equal (λ l, l !! 0)) in Ho.
  rewrite !list_lookup_fmap in Ho.
  destruct (ws !! 0) as [w|], (ws' !! 0) as [w'|]; simpl in *; try done.
  injection Ho as _ Ha. unfold output. by rewrite Ha.
Qed.

(** C7.  An external identifier that no fragment can translate is left out
    of every resolved set, wherever and however often it occurs in the
    subsets.  The initial phase of the query with the identifier succeeds,
    as does the one of the query without it, and both leave every worker
    with the same boundary and the same output. *)
Theorem unresolvable_identifier_is_dropped
    (parseJson : string → result (list oid_t)) (frags : list fragment_t)
    (s1 s1' s2 s2' : string) (l1 l2 : list oid_t) (oid : oid_t) :
  (∀ f, f ∈ frags → Oid2Gid f oid = None) →
  parseJson s1 = Ok l1 →
  parseJson s1' = Ok (filter (λ x, x ≠ oid) l1) →
  parse_2 parseJson s2 = Ok l2 →
  parse_2 parseJson s2' = Ok (filter (λ x, x ≠ oid) l2) →
  (∀ f l la lb, f ∈ frags →
     resolve f (filter (λ x, x ≠ oid) l) = resolve f l ∧
     resolve f (la ++ oid :: lb) = resolve f (la ++ lb)) ∧
  ∃ ws ws',
    PEval_round parseJson (init_workers frags s1 s2) = Ok ws ∧
    PEval_round parseJson (init_workers frags s1' s2') = Ok ws' ∧
    obs <$> ws = obs <$> ws' ∧
    final_output parseJson frags s1 s2 = final_output parseJson frags s1' s2'.
Proof.
  intros Hn H1 H1' H2 H2'. split.
  { intros f l la lb Hf. split.
    - by apply resolve_filter, Hn.
    - by apply resolve_drop, Hn. }
  assert (obs <$> (fresh_worker s1 s2 l1 l2 frags <$> frags) =
          obs <$> (fresh_worker s1' s2' (filter (λ x, x ≠ oid) l1)
                     (filter (λ x, x ≠ oid) l2) frags <$> frags)) as Ho.
  { apply obs_fresh_ext. intros f Hf. unfold partial_boundary.
    by rewrite !resolve_filter by by apply Hn. }
  do 2 eexists. split; [by apply PEval_round_fresh|].
  split; [by apply PEval_round_fresh|]. split; [done|].
  unfold final_output.
  rewrite (PEval_round_fresh _ _ _ _ _ _ H1 H2),
    (PEval_round_fresh _ _ _ _ _ _ H1' H2'). simpl.
  f_equal. by apply obs_output.
Qed.

Lemma ex_unknown_oid (oid : oid_t) (f : fragment_t) :
  oid ∉ vertices exG → f ∈ exFrags' → Oid2Gid f oid = None.
Proof.
  intros Hv Hf.
  destruct (Oid2Gid f oid) as [g|] eqn:E; [|done]. exfalso. apply Hv.
  apply (frag_vm_dom _ _ exFrags'_Fragmentation f oid Hf). eauto.
Qed.

Lemma unresolvable_identifier_is_dropped_witness :
  example_parseJson "[77,1,2,77]" = Ok [77; 1; 2; 77]%Z ∧
  example_parseJson "[1,2]" = Ok (filter (λ x, x ≠ 77%Z) [77; 1; 2; 77]%Z) ∧
  ∃ ws ws',
    PEval_round example_parseJson (init_workers exFrags' "[77,1,2,77]" "[3,77]")
      = Ok ws ∧
    PEval_round example_parseJson (init_workers exFrags' "[1,2]" "[3]") = Ok ws' ∧
    obs <$> ws = obs <$> ws' ∧
    final_output example_parseJson exFrags' "[77,1,2,77]" "[3,77]" =
    final_output example_parseJson exFrags' "[1,2]" "[3]".
Proof.
  split; [reflexivity|]. split; [reflexivity|].
  apply (unresolvable_identifier_is_dropped example_parseJson exFrags'
           "[77,1,2,77]" "[1,2]" "[3,77]" "[3]"
           [77; 1; 2; 77]%Z [3; 77]%Z 77%Z).
  - intros f. apply ex_unknown_oid. simpl. rewrite !elem_of_cons.
    intros [H|[H|[H|[H|H]]]]; [discriminate H..|by apply elem_of_nil in H].
  - reflexivity.
  - reflexivity.
  - reflexivity.
  - reflexivity.
Defined.

Lemma flat_rows_ext (f f' : fragment_t) (l : list edge_t) :
  Forall (λ e, row_of f e = row_of f' e) l →
  flat_map (λ e, [Gid2Oid f e.1; Gid2Oid f e.2]) l =
  flat_map (λ e, [Gid2Oid f' e.1; Gid2Oid f' e.2]) l.
Proof.
  induction 1 as [|e l He _ IH]; simpl; [done|].
  unfold row_of in He. injection He as -> ->. by rewrite IH.
Qed.

(** Two fragmentations that number the vertices alike have the same Merged
    Boundary and the same result. *)
Lemma same_numbering_same_result (G : graph) (frags frags' : list fragment_t)
    (f0 f0' : fragment_t) (l1 l2 : list oid_t) :
  Fragmentation G frags → Fragmentation G frags' →
  frags !! 0 = Some f0 → frags' !! 0 = Some f0' →
  (∀ o, Oid2Gid f0 o = Oid2Gid f0' o) →
  result_tensor f0 (merged_boundary frags l1 l2) =
  result_tensor f0' (merged_boundary frags' l1 l2).
Proof.
  intros HF HF' H0 H0' Hvm.
  assert (∀ l, resolve f0 l = resolve f0' l) as Hr.
  { intros l. apply set_eq. intros g. rewrite !elem_of_resolve.
    by setoid_rewrite Hvm. }
  assert (merged_boundary frags l1 l2 = merged_boundary frags' l1 l2) as Hm.
  { apply set_eq. intros [g n].
    rewrite (elem_of_merged_boundary G frags f0 HF H0),
      (elem_of_merged_boundary G frags' f0' HF' H0'), !Hr.
    unfold gid_edge. by setoid_rewrite Hvm. }
  rewrite Hm. unfold result_tensor. f_equal.
  apply flat_rows_ext, Forall_forall.
  intros [g n] (_ & (ou & ov & _ & Hu & Hv) & _)%elem_of_set_iter_edge
                 %(elem_of_merged_boundary G frags' f0' HF' H0').
  pose proof (coordinator_elem_of frags f0 H0) as Hc.
  pose proof (coordinator_elem_of frags' f0' H0') as Hc'.
  unfold row_of. simpl.
  rewrite (frag_vm_inv _ _ HF' f0' ou g Hc' Hu),
    (frag_vm_inv _ _ HF' f0' ov n Hc' Hv).
  rewrite <- Hvm in Hu, Hv.
  by rewrite (frag_vm_inv _ _ HF f0 ou g Hc Hu),
    (frag_vm_inv _ _ HF f0 ov n Hc Hv).
Qed.

(** C8, as stated, fails: the range partition and the hash partition of the
    example graph are both fragmentations of it, and for the first subset
    {1, 2} they produce the rows (1,3), (2,3) in different orders. *)
Lemma partition_independence_counterexample :
  Fragmentation exG exFrags ∧ Fragmentation exG exFrags' ∧
  final_output example_parseJson exFrags "[1,2]" EmptyString =
    Ok (Some {| t_data := [1; 3; 2; 3]%Z; t_shape := [2; 2] |}) ∧
  final_output example_parseJson exFrags' "[1,2]" EmptyString =
    Ok (Some {| t_data := [2; 3; 1; 3]%Z; t_shape := [2; 2] |}) ∧
  final_output example_parseJson exFrags "[1,2]" EmptyString ≠
  final_output example_parseJson exFrags' "[1,2]" EmptyString.
Proof.
  assert (final_output example_parseJson exFrags "[1,2]" EmptyString =
    Ok (Some {| t_data := [1; 3; 2; 3]%Z; t_shape := [2; 2] |})) as E
    by (vm_compute; reflexivity).
  assert (final_output example_parseJson exFrags' "[1,2]" EmptyString =
    Ok (Some {| t_data := [2; 3; 1; 3]%Z; t_shape := [2; 2] |})) as E'
    by (vm_compute; reflexivity).
  split; [exact exFrags_Fragmentation|].
  split; [exact exFrags'_Fragmentation|].
  split; [exact E|]. split; [exact E'|].
  rewrite E, E'. discriminate.
Qed.

(** C8, amended.  Two fresh queries with the same subsets over two
    fragmentations of the same graph both produce an output at their
    coordinator; the two outputs have the same shape and the same rows, up
    to the order of the rows; and they are equal when the two coordinators
    translate external identifiers to the same global identifiers. *)
Theorem partition_independence_up_to_row_order
    (parseJson : string → result (list oid_t))
    (G : graph) (frags frags' : list fragment_t) (s1 s2 : string)
    (l1 l2 : list oid_t) :
  Fragmentation G frags → Fragmentation G frags' →
  parseJson s1 = Ok l1 →
  parse_2 parseJson s2 = Ok l2 →
  ∃ T T',
    final_output parseJson frags s1 s2 = Ok (Some T) ∧
    final_output parseJson frags' s1 s2 = Ok (Some T') ∧
    t_shape T = t_shape T' ∧
    rows_of (t_data T) ≡ₚ rows_of (t_data T') ∧
    (∀ u v, (u, v) ∈ rows_of (t_data T) ↔ (u, v) ∈ rows_of (t_data T')) ∧
    ∀ f0 f0', frags !! 0 = Some f0 → frags' !! 0 = Some f0' →
      (∀ o, Oid2Gid f0 o = Oid2Gid f0' o) → T = T'.
Proof.
  intros HF HF' H1 H2.
  destruct (frag_coordinator _ _ HF) as [f0 H0].
  destruct (frag_coordinator _ _ HF') as [f0' H0'].
  exists (result_tensor f0 (merged_boundary frags l1 l2)),
         (result_tensor f0' (merged_boundary frags' l1 l2)).
  assert (∀ u v,
    (u, v) ∈ rows_of (t_data (result_tensor f0 (merged_boundary frags l1 l2))) ↔
    (u, v) ∈ rows_of (t_data (result_tensor f0' (merged_boundary frags' l1 l2))))
    as Hrows.
  { intros u v. by rewrite (elem_of_result_rows G frags f0 HF H0),
                  (elem_of_result_rows G frags' f0' HF' H0'). }
  assert (rows_of (t_data (result_tensor f0 (merged_boundary frags l1 l2))) ≡ₚ
          rows_of (t_data (result_tensor f0' (merged_boundary frags' l1 l2))))
    as Hperm.
  { apply NoDup_Permutation;
      [by apply (NoDup_result_rows G)..|]. by intros [u v]. }
  split_and!.
  - destruct frags as [|f rest]; [done|]. injection H0 as ->.
    apply final_output_eq; [|done..]. by apply (frag_fid _ _ HF 0).
  - destruct frags' as [|f rest]; [done|]. injection H0' as ->.
    apply final_output_eq; [|done..]. by apply (frag_fid _ _ HF' 0).
  - apply Permutation_length in Hperm.
    rewrite !rows_of_result_tensor, !length_fmap in Hperm.
    unfold set_iter_edge in Hperm.
    rewrite !(length_set_iter pair_le) in Hperm.
    simpl. by rewrite Hperm.
  - done.
  - done.
  - intros f f' Hf Hf' Hvm. rewrite H0 in Hf. rewrite H0' in Hf'.
    injection Hf as <-. injection Hf' as <-.
    by apply (same_numbering_same_result G).
Qed.

Lemma partition_independence_up_to_row_order_witness :
  Fragmentation exG exFrags ∧ Fragmentation exG exFrags' ∧
  example_parseJson "[1,2]" = Ok [1; 2]%Z ∧
  parse_2 example_parseJson EmptyString = Ok [] ∧
  ∃ T T',
    final_output example_parseJson exFrags "[1,2]" EmptyString = Ok (Some T) ∧
    final_output example_parseJson exFrags' "[1,2]" EmptyString = Ok (Some T') ∧
    t_shape T = t_shape T' ∧
    rows_of (t_data T) ≡ₚ rows_of (t_data T').
Proof.
  split; [exact exFrags_Fragmentation|].
  split; [exact exFrags'_Fragmentation|].
  split; [reflexivity|]. split; [reflexivity|].
  destruct (partition_independence_up_to_row_order example_parseJson exG
              exFrags exFrags' "[1,2]" EmptyString [1; 2]%Z []
              exFrags_Fragmentation exFrags'_Fragmentation eq_refl eq_refl)
    as (T & T' & E & E' & Hs & Hp & _).
  exists T, T'. auto.
Defined.

(** ** The incremental phase *)

Lemma IncEval_round_id (ws : list worker) : IncEval_round ws = ws.
Proof.
  induction ws as [|[f c m] ws IH]; [done|].
  unfold IncEval_round in *. simpl. f_equal. exact IH.
Qed.

(** The initial phase emits no message. *)
Lemma PEval_round_msgs (parseJson : string → result (list oid_t))
    (ws ws' : list worker) :
  PEval_round parseJson ws = Ok ws' → w_msgs <$> ws' = w_msgs <$> ws.
Proof.
  rewrite PEval_round_eq. destruct (scans parseJson ws) as [ctxs|] eqn:Hs;
    [simpl|done].
  intros [= <-]. apply scans_length in Hs.
  generalize (AllGather ctxs) as all_boundary. intros all_boundary.
  revert ctxs Hs. induction ws as [|w ws IH]; intros [|c ctxs] Hl;
    simpl in *; try done.
  f_equal. apply IH. lia.
Qed.

Lemma no_pending_existsb (ws : list worker) :
  Forall (λ w, has_pending (w_msgs w) = false) ws →
  existsb (λ w, has_pending (w_msgs w)) ws = false.
Proof.
  intros Hp. apply not_true_is_false.
  intros (w & Hw & Hpw)%existsb_exists. rewrite Forall_forall in Hp.
  apply list_elem_of_In in Hw. by rewrite (Hp w Hw) in Hpw.
Qed.

Lemma PEval_round_no_pending (parseJson : string → result (list oid_t))
    (ws ws' : list worker) :
  Forall (λ w, has_pending (w_msgs w) = false) ws →
  PEval_round parseJson ws = Ok ws' →
  Forall (λ w, has_pending (w_msgs w) = false) ws'.
Proof.
  intros Hp Hr. apply PEval_round_msgs in Hr.
  apply (Forall_fmap w_msgs (λ m, has_pending m = false)).
  rewrite Hr. by apply Forall_fmap.
Qed.

(** The driver finds no pending work after the initial phase and stops
    without an incremental round, whatever fuel it has. *)
Lemma Query_no_pending (parseJson : string → result (list oid_t))
    (ws ws' : list worker) (fuel : nat) :
  Forall (λ w, has_pending (w_msgs w) = false) ws →
  PEval_round parseJson ws = Ok ws' →
  Query parseJson fuel ws = Ok (Some (0, ws')).
Proof.
  intros Hp Hr. unfold Query. rewrite Hr. simpl.
  pose proof (PEval_round_no_pending parseJson ws ws' Hp Hr) as Hp'.
  destruct fuel; simpl; by rewrite (no_pending_existsb ws' Hp').
Qed.

(** C9, as stated, fails: in a fresh query over the example graph no worker
    reports pending work after the initial phase, so the driver, which tests
    for pending work before every incremental round, stops with zero
    incremental rounds, not one, whatever fuel it has. *)
Lemma one_incremental_round_counterexample :
  let ws := init_workers exFrags' "[1,2]" EmptyString in
  let ws' := fresh_worker "[1,2]" EmptyString [1; 2]%Z [] exFrags' <$> exFrags' in
  Forall (λ w, has_pending (w_msgs w) = false) ws ∧
  PEval_round example_parseJson ws = Ok ws' ∧
  (∀ fuel, Query example_parseJson fuel ws = Ok (Some (0, ws'))) ∧
  ¬ (∃ fuel r, Query example_parseJson fuel ws = Ok (Some (1, r))).
Proof.
  intros ws ws'.
  assert (Forall (λ w, has_pending (w_msgs w) = false) ws) as Hp.
  { apply Forall_fmap, Forall_forall. by intros f _. }
  assert (PEval_round example_parseJson ws = Ok ws') as Hr.
  { exact (PEval_round_fresh example_parseJson exFrags' "[1,2]" EmptyString
             [1; 2]%Z [] eq_refl eq_refl). }
  split; [exact Hp|]. split; [exact Hr|].
  split; [intros fuel; by apply Query_no_pending|].
  intros (fuel & r & Hq).
  rewrite (Query_no_pending example_parseJson ws ws' fuel Hp Hr) in Hq.
  discriminate Hq.
Qed.

(** C9, amended.  [IncEval] returns the context and the message manager it
    was given, so any number of incremental rounds changes no worker: no
    context, no output, no message buffer.  When the initial phase of a
    query succeeds from workers that report no pending work, it has emitted
    no message, no worker reports pending work after it, and the driver,
    whatever fuel it has, stops after the initial round, without an
    incremental round, with the workers the initial phase produced. *)
Theorem IncEval_is_a_no_op (parseJson : string → result (list oid_t))
    (ws ws' : list worker) (fuel : nat) :
  Forall (λ w, has_pending (w_msgs w) = false) ws →
  PEval_round parseJson ws = Ok ws' →
  (∀ frag ctx messages, IncEval frag ctx messages = (ctx, messages)) ∧
  (∀ n, Nat.iter n IncEval_round ws' = ws') ∧
  w_msgs <$> ws' = w_msgs <$> ws ∧
  Forall (λ w, has_pending (w_msgs w) = false) ws' ∧
  Query parseJson fuel ws = Ok (Some (0, ws')).
Proof.
  intros Hp Hr.
  split; [done|]. split.
  { intros n. induction n as [|n IH]; simpl; [done|].
    by rewrite IH, IncEval_round_id. }
  split; [by apply PEval_round_msgs in Hr|].
  split; [by apply (PEval_round_no_pending parseJson ws)|].
  by apply Query_no_pending.
Qed.

Lemma IncEval_is_a_no_op_witness :
  let ws := init_workers exFrags' "[1,2]" EmptyString in
  let ws' := fresh_worker "[1,2]" EmptyString [1; 2]%Z [] exFrags' <$> exFrags' in
  Forall (λ w, has_pending (w_msgs w) = false) ws ∧
  PEval_round example_parseJson ws = Ok ws' ∧
  (∀ n, Nat.iter n IncEval_round ws' = ws') ∧
  Query example_parseJson 5 ws = Ok (Some (0, ws')).
Proof.
  intros ws ws'.
  assert (Forall (λ w, has_pending (w_msgs w) = false) ws) as Hp.
  { apply Forall_fmap, Forall_forall. by intros f _. }
  assert (PEval_round example_parseJson ws = Ok ws') as Hr.
  { exact (PEval_round_fresh example_parseJson exFrags' "[1,2]" EmptyString
             [1; 2]%Z [] eq_refl eq_refl). }
  split; [exact Hp|]. split; [exact Hr|].
  destruct (IncEval_is_a_no_op example_parseJson ws ws' 5 Hp Hr)
    as (_ & Hi & _ & _ & Hq).
  split; [exact Hi|exact Hq].
Defined.

(** C10.  When the string of the second subset is not empty but none of its
    identifiers can be translated by any fragment, every fragment's scan
    succeeds and follows the complement rule: its Partial Boundary holds
    (g, n) exactly when g is in the resolved first subset and inner to the
    fragment, n is an outgoing neighbour of g and n is outside the resolved
    first subset, although no n is in the resolved second subset.  The
    initial phase then leaves every worker with the boundary and the output
    it gets when the second string is empty. *)
Theorem mode_follows_resolved_second_set
    (parseJson : string → result (list oid_t)) (frags : list fragment_t)
    (s1 s2 : string) (l1 l2 : list oid_t) :
  parseJson s1 = Ok l1 →
  s2 ≠ EmptyString →
  parseJson s2 = Ok l2 →
  (∀ f o, f ∈ frags → o ∈ l2 → Oid2Gid f o = None) →
  (∀ f, f ∈ frags →
     resolve f l2 = ∅ ∧
     ∃ ctx, PEval_scan parseJson f (init_ctx s1 s2) = Ok ctx ∧
     ∀ g n, (g, n) ∈ boundary ctx ↔
       g ∈ resolve f l1 ∧
       ∃ u e, InnerVertexGid2Vertex f g = Some u ∧
              e ∈ GetOutgoingAdjList f u ∧
              Vertex2Gid f (get_neighbor e) = n ∧ n ∉ resolve f l1) ∧
  ∃ ws ws0,
    PEval_round parseJson (init_workers frags s1 s2) = Ok ws ∧
    PEval_round parseJson (init_workers frags s1 EmptyString) = Ok ws0 ∧
    obs <$> ws = obs <$> ws0 ∧
    final_output parseJson frags s1 s2 = final_output parseJson frags s1 EmptyString.
Proof.
  intros H1 Hne Hp Hn.
  assert (parse_2 parseJson s2 = Ok l2) as H2.
  { unfold parse_2. by rewrite decide_False. }
  assert (parse_2 parseJson EmptyString = Ok []) as H2' by done.
  assert (∀ f, f ∈ frags → resolve f l2 = ∅) as He.
  { intros f Hf. apply resolve_all_fail. intros o Ho. by apply Hn. }
  split.
  - intros f Hf. split; [by apply He|].
    eexists. split; [by apply PEval_scan_fresh|].
    intros g n. simpl. unfold partial_boundary. rewrite elem_of_scan.
    unfold admits. rewrite decide_True by by apply He. set_solver.
  - assert (obs <$> (fresh_worker s1 s2 l1 l2 frags <$> frags) =
            obs <$> (fresh_worker s1 EmptyString l1 [] frags <$> frags)) as Ho.
    { apply obs_fresh_ext. intros f Hf. unfold partial_boundary.
      by rewrite (He f Hf). }
    do 2 eexists. split; [by apply PEval_round_fresh|].
    split; [by apply PEval_round_fresh|]. split; [done|].
    unfold final_output.
    rewrite (PEval_round_fresh _ _ _ _ _ _ H1 H2),
      (PEval_round_fresh _ _ _ _ _ _ H1 H2'). simpl.
    f_equal. by apply obs_output.
Qed.

Lemma mode_follows_resolved_second_set_witness :
  example_parseJson "[1,2]" = Ok [1; 2]%Z ∧ "[99,100]" ≠ EmptyString ∧
  example_parseJson "[99,100]" = Ok [99; 100]%Z ∧
  (∀ f o, f ∈ exFrags' → o ∈ [99; 100]%Z → Oid2Gid f o = None) ∧
  final_output example_parseJson exFrags' "[1,2]" "[99,100]" =
  final_output example_parseJson exFrags' "[1,2]" EmptyString.
Proof.
  assert (∀ f o, f ∈ exFrags' → o ∈ [99; 100]%Z → Oid2Gid f o = None) as Hn.
  { intros f o Hf Ho. apply ex_unknown_oid; [|done].
    simpl. rewrite !elem_of_cons in Ho. rewrite !elem_of_cons.
    destruct Ho as [->|[->|Ho]]; [| |by apply elem_of_nil in Ho];
      intros [H|[H|[H|[H|H]]]]; try discriminate H; by apply elem_of_nil in H. }
  split; [reflexivity|]. split; [discriminate|]. split; [reflexivity|].
  split; [exact Hn|].
  destruct (mode_follows_resolved_second_set example_parseJson exFrags'
              "[1,2]" "[99,100]" [1; 2]%Z [99; 100]%Z eq_refl
              ltac:(discriminate) eq_refl Hn)
    as (_ & ws & ws0 & _ & _ & _ & E).
  exact E.
Defined.

(** * Further properties of the code *)

(** ** Helper lemmas *)

(** The scan only adds to the boundary it is given. *)
Lemma scan_union (frag : fragment_t) (set1 set2 : gset N) (b : gset edge_t) :
  scan frag set1 set2 b = b ∪ scan frag set1 set2 ∅.
Proof.
  apply set_eq. intros [g n].
  rewrite elem_of_union, !elem_of_scan. set_solver.
Qed.

(** The resolved set depends on the identifiers listed, not on their order
    or number of occurrences. *)
Lemma resolve_ext (frag : fragment_t) (l l' : list oid_t) :
  (∀ o, o ∈ l ↔ o ∈ l') → resolve frag l = resolve frag l'.
Proof.
  intros Hl. apply set_eq. intros g. rewrite !elem_of_resolve.
  by setoid_rewrite Hl.
Qed.

Lemma set_boundary_same (ctx : context_t) : set_boundary (boundary ctx) ctx = ctx.
Proof. by destruct ctx. Qed.

(** X1.  [PEval] fails before the gather exactly when the parser rejects the
    first subset, or the second subset is a non-empty string and the parser
    rejects it.  Nothing else makes it fail, and an empty second string is
    never handed to the parser. *)
Theorem PEval_scan_fails_iff (parseJson : string → result (list oid_t))
    (frag : fragment_t) (ctx : context_t) :
  PEval_scan parseJson frag ctx = ParseError ↔
  parseJson (nbunch1 ctx) = ParseError ∨
  (nbunch2 ctx ≠ EmptyString ∧ parseJson (nbunch2 ctx) = ParseError).
Proof.
  unfold PEval_scan, resolve_2.
  destruct (parseJson (nbunch1 ctx)) as [l1|]; simpl; [|by split; [left|]].
  case_decide as He; simpl.
  - split; [done|]. intros [?|[? _]]; done.
  - destruct (parseJson (nbunch2 ctx)) as [l2|]; simpl.
    + split; [done|]. intros [?|[_ ?]]; done.
    + split; [by right|done].
Qed.

(** X2.  [PEval] never clears [ctx.boundary]: when both subsets parse, the
    scan succeeds and the boundary afterwards is the boundary before
    together with the Partial Boundary of the fragment; the inputs and the
    output slot are untouched. *)
Theorem PEval_scan_accumulates (parseJson : string → result (list oid_t))
    (frag : fragment_t) (ctx : context_t) (l1 l2 : list oid_t) :
  parseJson (nbunch1 ctx) = Ok l1 →
  parse_2 parseJson (nbunch2 ctx) = Ok l2 →
  ∃ ctx', PEval_scan parseJson frag ctx = Ok ctx' ∧
    boundary ctx' = boundary ctx ∪ partial_boundary frag l1 l2 ∧
    nbunch1 ctx' = nbunch1 ctx ∧ nbunch2 ctx' = nbunch2 ctx ∧
    assigned ctx' = assigned ctx.
Proof.
  intros H1 H2. eexists. split; [by apply PEval_scan_Ok|]. simpl.
  split; [|done]. unfold partial_boundary. apply scan_union.
Qed.

Lemma PEval_scan_accumulates_witness :
  let ctx := set_boundary {[(7%N, 7%N)]} (init_ctx "[1,2]" EmptyString) in
  ∃ ctx', PEval_scan example_parseJson (mk_fragment exG exL' 1) ctx = Ok ctx' ∧
    boundary ctx' =
      {[(7%N, 7%N)]} ∪ partial_boundary (mk_fragment exG exL' 1) [1; 2]%Z [] ∧
    nbunch1 ctx' = nbunch1 ctx ∧ nbunch2 ctx' = nbunch2 ctx ∧
    assigned ctx' = assigned ctx.
Proof.
  intros ctx.
  exact (PEval_scan_accumulates example_parseJson (mk_fragment exG exL' 1) ctx
           [1; 2]%Z [] eq_refl eq_refl).
Defined.

(** X3.  The order of the identifiers in a subset and their repetitions do
    not matter: two fresh queries whose subsets list the same identifiers
    both succeed and leave every worker with the same boundary and the same
    output. *)
Theorem subset_order_and_repetition_irrelevant
    (parseJson : string → result (list oid_t)) (frags : list fragment_t)
    (s1 s1' s2 s2' : string) (l1 l1' l2 l2' : list oid_t) :
  parseJson s1 = Ok l1 → parseJson s1' = Ok l1' →
  parse_2 parseJson s2 = Ok l2 → parse_2 parseJson s2' = Ok l2' →
  (∀ o, o ∈ l1 ↔ o ∈ l1') →
  (∀ o, o ∈ l2 ↔ o ∈ l2') →
  ∃ ws ws',
    PEval_round parseJson (init_workers frags s1 s2) = Ok ws ∧
    PEval_round parseJson (init_workers frags s1' s2') = Ok ws' ∧
    obs <$> ws = obs <$> ws' ∧
    final_output parseJson frags s1 s2 = final_output parseJson frags s1' s2'.
Proof.
  intros H1 H1' H2 H2' Hl1 Hl2.
  assert (obs <$> (fresh_worker s1 s2 l1 l2 frags <$> frags) =
          obs <$> (fresh_worker s1' s2' l1' l2' frags <$> frags)) as Ho.
  { apply obs_fresh_ext. intros f _. unfold partial_boundary.
    by rewrite (resolve_ext f l1 l1' Hl1), (resolve_ext f l2 l2' Hl2). }
  do 2 eexists. split; [by apply PEval_round_fresh|].
  split; [by apply PEval_round_fresh|]. split; [done|].
  unfold final_output.
  rewrite (PEval_round_fresh _ _ _ _ _ _ H1 H2),
    (PEval_round_fresh _ _ _ _ _ _ H1' H2'). simpl.
  f_equal. by apply obs_output.
Qed.

Lemma subset_order_and_repetition_irrelevant_witness :
  example_parseJson "[2,1,2]" = Ok [2; 1; 2]%Z ∧
  example_parseJson "[1,2]" = Ok [1; 2]%Z ∧
  (∀ o, o ∈ [2; 1; 2]%Z ↔ o ∈ [1; 2]%Z) ∧
  final_output example_parseJson exFrags' "[2,1,2]" "[3,3]" =
  final_output example_parseJson exFrags' "[1,2]" "[3]".
Proof.
  assert (∀ o, o ∈ [2; 1; 2]%Z ↔ o ∈ [1; 2]%Z) as Hl1.
  { intros o. rewrite !elem_of_cons, elem_of_nil. tauto. }
  assert (∀ o, o ∈ [3; 3]%Z ↔ o ∈ [3]%Z) as Hl2.
  { intros o. rewrite !elem_of_cons, elem_of_nil. tauto. }
  split; [reflexivity|]. split; [reflexivity|]. split; [exact Hl1|].
  destruct (subset_order_and_repetition_irrelevant example_parseJson exFrags'
              "[2,1,2]" "[1,2]" "[3,3]" "[3]" [2; 1; 2]%Z [1; 2]%Z
              [3; 3]%Z [3]%Z eq_refl eq_refl eq_refl eq_refl Hl1 Hl2)
    as (ws & ws' & _ & _ & _ & E).
  exact E.
Defined.

Lemma partial_boundary_empty_first (frag : fragment_t) (l1 l2 : list oid_t) :
  resolve frag l1 = ∅ → partial_boundary frag l1 l2 = ∅.
Proof.
  intros He. unfold partial_boundary. rewrite He. apply set_eq.
  intros [g n]. rewrite elem_of_scan. set_solver.
Qed.

Lemma result_tensor_empty (frag : fragment_t) :
  result_tensor frag ∅ = {| t_data := []; t_shape := [0; 2] |}.
Proof. reflexivity. Qed.

(** X4.  When no identifier of the first subset can be translated (in
    particular when the first subset is the empty array), every fragment's
    Partial Boundary is empty whatever the second subset is, and the
    coordinator still writes its output: an empty sequence with shape
    [0; 2]. *)
Theorem empty_first_subset_gives_empty_result
    (parseJson : string → result (list oid_t))
    (f0 : fragment_t) (rest : list fragment_t) (s1 s2 : string)
    (l1 l2 : list oid_t) :
  fid f0 = 0 →
  parseJson s1 = Ok l1 →
  parse_2 parseJson s2 = Ok l2 →
  (∀ f o, f ∈ f0 :: rest → o ∈ l1 → Oid2Gid f o = None) →
  (∀ f, f ∈ f0 :: rest → partial_boundary f l1 l2 = ∅) ∧
  final_output parseJson (f0 :: rest) s1 s2 =
    Ok (Some {| t_data := []; t_shape := [0; 2] |}).
Proof.
  intros Hf H1 H2 Hn.
  assert (∀ f, f ∈ f0 :: rest → partial_boundary f l1 l2 = ∅) as Hp.
  { intros f Hin. apply partial_boundary_empty_first, resolve_all_fail.
    intros o Ho. by apply Hn. }
  split; [done|].
  rewrite (final_output_eq parseJson f0 rest s1 s2 l1 l2 Hf H1 H2).
  assert (merged_boundary (f0 :: rest) l1 l2 = ∅) as ->; [|done].
  apply set_eq. intros e. unfold merged_boundary.
  rewrite elem_of_union_list. split; [|set_solver].
  intros (X & (f & -> & Hin)%list_elem_of_fmap & He).
  by rewrite (Hp f Hin) in He.
Qed.

Lemma empty_first_subset_gives_empty_result_witness :
  example_parseJson "[]" = Ok [] ∧
  final_output example_parseJson
    (mk_fragment exG exL' 0 :: [mk_fragment exG exL' 1]) "[]" "[3]" =
    Ok (Some {| t_data := []; t_shape := [0; 2] |}).
Proof.
  split; [reflexivity|].
  apply (empty_first_subset_gives_empty_result example_parseJson
           (mk_fragment exG exL' 0) [mk_fragment exG exL' 1] "[]" "[3]"
           [] [3]%Z eq_refl eq_refl eq_refl).
  intros f o _ Ho. by apply elem_of_nil in Ho.
Defined.

(** X5.  The merge at worker 0 takes its own contribution from
    [ctx.boundary] and skips slot 0 of the gathered sequence; the order of
    the other slots does not matter; with no peer the boundary is left as it
    is; nothing is ever removed. *)
Theorem merge_gathered_skips_slot_0 (b x y : gset edge_t)
    (rest rest' : list (gset edge_t)) :
  rest ≡ₚ rest' →
  merge_gathered b (x :: rest) = merge_gathered b (y :: rest') ∧
  merge_gathered b (x :: rest) = b ∪ ⋃ rest ∧
  merge_gathered b [] = b ∧
  merge_gathered b [x] = b ∧
  b ⊆ merge_gathered b (x :: rest) ∧
  merge_gathered (merge_gathered b (x :: rest)) (y :: rest) =
    merge_gathered b (x :: rest).
Proof.
  intros Hp. rewrite !merge_gathered_union. simpl.
  assert (⋃ rest = ⋃ rest') as Hu.
  { apply set_eq. intros e. rewrite !elem_of_union_list.
    by setoid_rewrite Hp. }
  rewrite Hu. split_and!; try done; set_solver.
Qed.

Lemma merge_gathered_skips_slot_0_witness :
  let b : gset edge_t := {[(0%N, 3%N)]} in
  let p : gset edge_t := {[(2%N, 3%N)]} in
  let q : gset edge_t := {[(1%N, 0%N)]} in
  merge_gathered b (∅ :: [p; q]) = merge_gathered b (b :: [q; p]) ∧
  merge_gathered b (∅ :: [p; q]) = b ∪ ⋃ [p; q].
Proof.
  intros b p q.
  destruct (merge_gathered_skips_slot_0 b ∅ b [p; q] [q; p]
              (Permutation_swap q p [])) as (E1 & E2 & _).
  split; [exact E1|exact E2].
Defined.

(** X6.  A fragment reports only edges it owns: every pair of its Partial
    Boundary has a source that is in the resolved first subset and inner to
    the fragment, and a destination that is the global identifier of an
    outgoing neighbour of that source.  A fragment to which no vertex of the
    first subset is inner has an empty Partial Boundary. *)
Theorem partial_boundary_sources_are_inner (frag : fragment_t)
    (l1 l2 : list oid_t) :
  (∀ g n, (g, n) ∈ partial_boundary frag l1 l2 →
     g ∈ resolve frag l1 ∧
     ∃ u e, InnerVertexGid2Vertex frag g = Some u ∧
            e ∈ GetOutgoingAdjList frag u ∧
            Vertex2Gid frag (get_neighbor e) = n) ∧
  ((∀ g, g ∈ resolve frag l1 → InnerVertexGid2Vertex frag g = None) →
   partial_boundary frag l1 l2 = ∅).
Proof.
  split.
  - intros g n [?|(Hg & u & e & Hu & He & Hn & _)]%elem_of_scan; [set_solver|].
    split; [done|]. by exists u, e.
  - intros Hnone. apply set_eq. intros [g n]. split; [|set_solver].
    intros [?|(Hg & u & e & Hu & _)]%elem_of_scan; [set_solver|].
    by rewrite (Hnone g Hg) in Hu.
Qed.

Lemma partial_boundary_source_inner (frag : fragment_t) (l1 l2 : list oid_t)
    (e : edge_t) :
  e ∈ partial_boundary frag l1 l2 → is_Some (InnerVertexGid2Vertex frag e.1).
Proof.
  destruct e as [g n].
  intros [?|(_ & u & _ & Hu & _)]%elem_of_scan; [set_solver|]. simpl. eauto.
Qed.

Lemma size_merged_disjoint (frags : list fragment_t) (l1 l2 : list oid_t) :
  unique_owner frags →
  size (merged_boundary frags l1 l2) =
  sum_list ((λ f, size (partial_boundary f l1 l2)) <$> frags).
Proof.
  unfold merged_boundary. induction frags as [|f rest IH]; intros Hu; simpl.
  - reflexivity.
  - rewrite size_union.
    + f_equal. apply IH. intros i j f1 f2 g H1 H2 Hi Hj.
      by injection (Hu (S i) (S j) f1 f2 g H1 H2 Hi Hj).
    + intros e He (X & (f' & -> & Hin)%list_elem_of_fmap & He')%elem_of_union_list.
      apply list_elem_of_lookup in Hin as [j Hj].
      apply partial_boundary_source_inner in He, He'.
      by specialize (Hu 0 (S j) f f' e.1 eq_refl Hj He He').
Qed.

(** X7.  When no vertex is inner to two workers, the Partial Boundaries of
    two different workers have no pair in common, so the Merged Boundary has
    as many pairs as the Partial Boundaries together: the merge never
    collapses two discoveries into one. *)
Theorem partial_boundaries_are_disjoint (frags : list fragment_t)
    (l1 l2 : list oid_t) :
  unique_owner frags →
  (∀ i j f f', frags !! i = Some f → frags !! j = Some f' → i ≠ j →
     partial_boundary f l1 l2 ## partial_boundary f' l1 l2) ∧
  size (merged_boundary frags l1 l2) =
  sum_list ((λ f, size (partial_boundary f l1 l2)) <$> frags).
Proof.
  intros Hu. split; [|by apply size_merged_disjoint].
  intros i j f f' Hi Hj Hne e He He'.
  apply partial_boundary_source_inner in He, He'.
  by apply Hne, (Hu i j f f' e.1).
Qed.

Lemma mk_fragments_unique_owner (G : graph) (L : layout) :
  unique_owner (mk_fragments G L).
Proof.
  intros i j f f' g. unfold mk_fragments. rewrite !list_lookup_fmap.
  intros (i' & [-> _]%lookup_seq & ->)%fmap_Some
         (j' & [-> _]%lookup_seq & ->)%fmap_Some. simpl.
  repeat case_decide; intros [? ?] [? ?]; try done. lia.
Qed.

Lemma partial_boundaries_are_disjoint_witness :
  unique_owner exFrags' ∧
  size (merged_boundary exFrags' [1; 2; 4]%Z []) =
  sum_list ((λ f, size (partial_boundary f [1; 2; 4]%Z [])) <$> exFrags').
Proof.
  split; [exact (mk_fragments_unique_owner exG exL')|].
  apply (partial_boundaries_are_disjoint exFrags' [1; 2; 4]%Z []
           (mk_fragments_unique_owner exG exL')).
Defined.

(** X8.  Whatever the mode, the result of a fresh query over a fragmentation
    of a graph holds only edges of the graph whose source is in the first
    subset, and its first dimension, the number of its rows, is at most the
    number of edges of the graph. *)
Theorem result_rows_are_edges (parseJson : string → result (list oid_t))
    (G : graph) (frags : list fragment_t) (s1 s2 : string)
    (l1 l2 : list oid_t) :
  Fragmentation G frags →
  parseJson s1 = Ok l1 →
  parse_2 parseJson s2 = Ok l2 →
  ∃ T n, final_output parseJson frags s1 s2 = Ok (Some T) ∧
    (∀ u v, (u, v) ∈ rows_of (t_data T) → (u, v) ∈ edges G ∧ u ∈ l1) ∧
    t_shape T = [n; 2] ∧
    n = length (rows_of (t_data T)) ∧
    n ≤ length (edges G).
Proof.
  intros HF H1 H2. destruct (frag_coordinator _ _ HF) as [f0 H0].
  exists (result_tensor f0 (merged_boundary frags l1 l2)),
         (size (merged_boundary frags l1 l2)).
  assert (∀ u v,
    (u, v) ∈ rows_of (t_data (result_tensor f0 (merged_boundary frags l1 l2))) →
    (u, v) ∈ edges G ∧ u ∈ l1) as Hrows.
  { intros u v Hr. apply (elem_of_result_rows G frags f0 HF H0) in Hr. tauto. }
  assert (size (merged_boundary frags l1 l2) =
    length (rows_of (t_data (result_tensor f0 (merged_boundary frags l1 l2)))))
    as Hlen.
  { rewrite rows_of_result_tensor, length_fmap. unfold set_iter_edge.
    by rewrite (length_set_iter pair_le). }
  split_and!; try done.
  - destruct frags as [|f rest]; [done|]. injection H0 as ->.
    apply final_output_eq; [|done..]. by apply (frag_fid _ _ HF 0).
  - rewrite Hlen. apply submseteq_length, NoDup_submseteq.
    + by apply (NoDup_result_rows G).
    + intros [u v] Hr. by apply Hrows.
Qed.

Lemma result_rows_are_edges_witness :
  Fragmentation exG exFrags' ∧
  ∃ T n, final_output example_parseJson exFrags' "[1,2,4]" "[1,3]" = Ok (Some T) ∧
    (∀ u v, (u, v) ∈ rows_of (t_data T) →
            (u, v) ∈ edges exG ∧ u ∈ [1; 2; 4]%Z) ∧
    t_shape T = [n; 2] ∧
    n = length (rows_of (t_data T)) ∧
    n ≤ length (edges exG).
Proof.
  split; [exact exFrags'_Fragmentation|].
  exact (result_rows_are_edges example_parseJson exG exFrags'
           "[1,2,4]" "[1,3]" [1; 2; 4]%Z [1; 3]%Z
           exFrags'_Fragmentation eq_refl eq_refl).
Defined.

(** Over a fragmentation, membership of a vertex's global identifier in a
    resolved set is membership of its external identifier in the list. *)
Lemma elem_of_resolve_vertex (G : graph) (frags : list fragment_t)
    (f0 : fragment_t) (l : list oid_t) (o : oid_t) (n : N) :
  Fragmentation G frags → frags !! 0 = Some f0 →
  Oid2Gid f0 o = Some n → n ∈ resolve f0 l ↔ o ∈ l.
Proof.
  intros HF H0 Ho. pose proof (coordinator_elem_of frags f0 H0) as Hc.
  rewrite elem_of_resolve. split.
  - intros (o' & Hin & Ho').
    by rewrite <- (frag_vm_inv _ _ HF f0 o' n Hc Ho'),
         (frag_vm_inv _ _ HF f0 o n Hc Ho) in Hin.
  - intros Hin. eauto.
Qed.

(** X9.  The complement mode is the targeted mode aimed at the complement:
    over a fragmentation of a graph, a fresh query whose second subset lists
    exactly the vertices of the graph outside the first subset produces the
    same output as the query with no second subset. *)
Theorem complement_is_targeted_at_the_complement
    (parseJson : string → result (list oid_t))
    (G : graph) (frags : list fragment_t) (s1 s2 : string)
    (l1 l2 : list oid_t) :
  Fragmentation G frags →
  parseJson s1 = Ok l1 →
  parse_2 parseJson s2 = Ok l2 →
  (∀ o, o ∈ l2 ↔ o ∈ vertices G ∧ o ∉ l1) →
  ∃ T, final_output parseJson frags s1 s2 = Ok (Some T) ∧
       final_output parseJson frags s1 EmptyString = Ok (Some T).
Proof.
  intros HF H1 H2 Hl2. destruct (frag_coordinator _ _ HF) as [f0 H0].
  pose proof (coordinator_elem_of frags f0 H0) as Hc.
  assert (parse_2 parseJson EmptyString = Ok []) as H2' by done.
  assert (merged_boundary frags l1 l2 = merged_boundary frags l1 []) as Hm.
  { apply set_eq. intros [g n].
    rewrite !(elem_of_merged_boundary G frags f0 HF H0).
    split; intros (Hg & Hedge & Ha); split_and!; try done;
      destruct Hedge as (ou & ov & He & Hu & Hv);
      pose proof (elem_of_resolve_vertex G frags f0 l1 ov n HF H0 Hv) as Hn1;
      pose proof (elem_of_resolve_vertex G frags f0 l2 ov n HF H0 Hv) as Hn2;
      destruct (frag_endpoints _ _ HF ou ov He) as [_ Hvv];
      unfold admits in *; simpl in *.
    - rewrite decide_True by done.
      destruct (decide (resolve f0 l2 = ∅)) as [Hd|Hd]; [done|].
      rewrite Hn1. apply Hn2, Hl2 in Ha. tauto.
    - rewrite decide_True in Ha by done.
      destruct (decide (resolve f0 l2 = ∅)) as [Hd|Hd]; [done|].
      apply Hn2, Hl2. rewrite Hn1 in Ha. tauto. }
  exists (result_tensor f0 (merged_boundary frags l1 l2)).
  destruct frags as [|f rest]; [done|]. injection H0 as ->.
  pose proof (frag_fid _ _ HF 0 f0 eq_refl) as Hf.
  split.
  - by apply final_output_eq.
  - rewrite Hm. by apply final_output_eq.
Qed.

Lemma complement_is_targeted_at_the_complement_witness :
  Fragmentation exG exFrags' ∧
  (∀ o, o ∈ [3; 4]%Z ↔ o ∈ vertices exG ∧ o ∉ [1; 2]%Z) ∧
  ∃ T, final_output example_parseJson exFrags' "[1,2]" "[3,4]" = Ok (Some T) ∧
       final_output example_parseJson exFrags' "[1,2]" EmptyString = Ok (Some T).
Proof.
  assert (∀ o, o ∈ [3; 4]%Z ↔ o ∈ vertices exG ∧ o ∉ [1; 2]%Z) as Hl.
  { intros o. simpl. rewrite !elem_of_cons, !elem_of_nil. lia. }
  split; [exact exFrags'_Fragmentation|]. split; [exact Hl|].
  exact (complement_is_targeted_at_the_complement example_parseJson exG
           exFrags' "[1,2]" "[3,4]" [1; 2]%Z [3; 4]%Z
           exFrags'_Fragmentation eq_refl eq_refl Hl).
Defined.

(** X10.  The output can be read back: over a fragmentation of a graph,
    translating the rows of the result with [Oid2Gid] gives, row by row, the
    pairs of the Merged Boundary in ascending order; no translation fails. *)
Theorem result_rows_translate_back (parseJson : string → result (list oid_t))
    (G : graph) (frags : list fragment_t) (s1 s2 : string)
    (l1 l2 : list oid_t) :
  Fragmentation G frags →
  parseJson s1 = Ok l1 →
  parse_2 parseJson s2 = Ok l2 →
  ∃ f0 T, frags !! 0 = Some f0 ∧
    final_output parseJson frags s1 s2 = Ok (Some T) ∧
    gids_of_row f0 <$> rows_of (t_data T) =
    (λ e : edge_t, (Some e.1, Some e.2))
      <$> set_iter_edge (merged_boundary frags l1 l2).
Proof.
  intros HF H1 H2. destruct (frag_coordinator _ _ HF) as [f0 H0].
  pose proof (coordinator_elem_of frags f0 H0) as Hc.
  exists f0, (result_tensor f0 (merged_boundary frags l1 l2)).
  split; [done|]. split.
  - destruct frags as [|f rest]; [done|]. injection H0 as ->.
    apply final_output_eq; [|done..]. by apply (frag_fid _ _ HF 0).
  - rewrite rows_of_result_tensor, <- list_fmap_compose.
    apply Forall_fmap_ext_1, Forall_forall.
    intros [g n] (_ & (ou & ov & _ & Hu & Hv) & _)%elem_of_set_iter_edge
                   %(elem_of_merged_boundary G frags f0 HF H0).
    unfold gids_of_row, row_of. simpl.
    by rewrite (frag_vm_inv _ _ HF f0 ou g Hc Hu),
      (frag_vm_inv _ _ HF f0 ov n Hc Hv), Hu, Hv.
Qed.

Lemma result_rows_translate_back_witness :
  Fragmentation exG exFrags' ∧
  ∃ f0 T, exFrags' !! 0 = Some f0 ∧
    final_output example_parseJson exFrags' "[1,2]" EmptyString = Ok (Some T) ∧
    gids_of_row f0 <$> rows_of (t_data T) =
    (λ e : edge_t, (Some e.1, Some e.2))
      <$> set_iter_edge (merged_boundary exFrags' [1; 2]%Z []).
Proof.
  split; [exact exFrags'_Fragmentation|].
  exact (result_rows_translate_back example_parseJson exG exFrags'
           "[1,2]" EmptyString [1; 2]%Z []
           exFrags'_Fragmentation eq_refl eq_refl).
Defined.

(** ** Running the initial phase again *)

Lemma PEval_merge_frame (frag : fragment_t) (ctx : context_t)
    (all_boundary : list (gset edge_t)) :
  nbunch1 (PEval_merge frag ctx all_boundary) = nbunch1 ctx ∧
  nbunch2 (PEval_merge frag ctx all_boundary) = nbunch2 ctx ∧
  boundary ctx ⊆ boundary (PEval_merge frag ctx all_boundary) ∧
  boundary (PEval_merge frag ctx all_boundary) ⊆
    boundary ctx ∪ ⋃ (drop 1 all_boundary).
Proof.
  unfold PEval_merge. case_decide; [|set_solver].
  rewrite writeToCtx_eq. simpl. rewrite merge_gathered_union. set_solver.
Qed.

(** A context that already holds what the scan finds passes through the
    scan unchanged. *)
Lemma PEval_scan_again (parseJson : string → result (list oid_t))
    (frag : fragment_t) (ctx c : context_t) (all_boundary : list (gset edge_t)) :
  PEval_scan parseJson frag ctx = Ok c →
  PEval_scan parseJson frag (PEval_merge frag c all_boundary) =
  Ok (PEval_merge frag c all_boundary).
Proof.
  intros Hs.
  destruct (PEval_merge_frame frag c all_boundary) as (Hn1 & Hn2 & Hsub & _).
  revert Hs. unfold PEval_scan, resolve_2.
  destruct (parseJson (nbunch1 ctx)) as [l1|] eqn:E1; [simpl|done].
  intros Hs.
  assert (∃ set2, c = set_boundary
            (scan frag (resolve frag l1) set2 (boundary ctx)) ctx ∧
          (if decide (nbunch2 ctx = EmptyString) then Ok ∅
           else parseJson (nbunch2 ctx) ≫= λ l, Ok (resolve frag l)) = Ok set2)
    as (set2 & Hc & E2).
  { destruct (if decide (nbunch2 ctx = EmptyString) then Ok ∅
              else parseJson (nbunch2 ctx) ≫= λ l, Ok (resolve frag l))
      as [set2|]; [simpl in Hs|done]. injection Hs as <-. eauto. }
  assert (nbunch1 c = nbunch1 ctx ∧ nbunch2 c = nbunch2 ctx) as [Hc1 Hc2]
    by (by rewrite Hc).
  rewrite Hn1, Hn2, Hc1, Hc2, E1. simpl. rewrite E2. simpl. f_equal.
  rewrite scan_union.
  replace (boundary (PEval_merge frag c all_boundary)
             ∪ scan frag (resolve frag l1) set2 ∅)
    with (boundary (PEval_merge frag c all_boundary)).
  - apply set_boundary_same.
  - assert (scan frag (resolve frag l1) set2 ∅ ⊆ boundary c) as Hsc.
    { rewrite Hc. simpl. rewrite (scan_union _ _ _ (boundary ctx)). set_solver. }
    set_solver.
Qed.

(** X11.  Running the initial phase a second time, on the workers the first
    run produced, succeeds and changes no boundary and no output content:
    the scan and the merge only re-insert pairs that are already there.  The
    only effect is that each worker with fragment identifier 0 writes its
    output once more. *)
Theorem PEval_round_again (parseJson : string → result (list oid_t))
    (ws ws1 : list worker) :
  PEval_round parseJson ws = Ok ws1 →
  ∃ ws2, PEval_round parseJson ws1 = Ok ws2 ∧
    Forall2 (λ w1 w2,
      w_frag w2 = w_frag w1 ∧
      boundary (w_ctx w2) = boundary (w_ctx w1) ∧
      output (w_ctx w2) = output (w_ctx w1) ∧
      assigned (w_ctx w2) =
        if decide (fid (w_frag w1) = 0)
        then result_tensor (w_frag w1) (boundary (w_ctx w1))
               :: assigned (w_ctx w1)
        else assigned (w_ctx w1)) ws1 ws2.
Proof.
  rewrite PEval_round_eq.
  destruct (scans parseJson ws) as [ctxs|] eqn:Hs; [simpl|done].
  intros [= <-].
  set (all_boundary := AllGather ctxs).
  set (ws1 := zip_with (finish all_boundary) ws ctxs).
  assert (∀ k w1, ws1 !! k = Some w1 →
            ∃ w c, ws !! k = Some w ∧ ctxs !! k = Some c ∧
                   w1 = finish all_boundary w c ∧
                   PEval_scan parseJson (w_frag w) (w_ctx w) = Ok c) as Hw1.
  { intros k w1 (w & c & -> & Hw & Hc)%lookup_zip_with_Some.
    destruct (scans_lookup _ _ _ _ _ Hs Hw) as (c' & Hc' & Hsc).
    rewrite Hc in Hc'. injection Hc' as <-. by exists w, c. }
  assert (scans parseJson ws1 = Ok (w_ctx <$> ws1)) as Hs1.
  { apply scans_Ok, Forall2_fmap_r, Forall_Forall2_diag, Forall_forall.
    intros w1 [k Hk]%list_elem_of_lookup.
    destruct (Hw1 k w1 Hk) as (w & c & _ & _ & -> & Hsc). simpl.
    by apply (PEval_scan_again parseJson (w_frag w) (w_ctx w)). }
  rewrite PEval_round_eq, Hs1. simpl.
  set (all2 := AllGather (w_ctx <$> ws1)).
  assert (∀ X, X ∈ drop 1 all2 → X ⊆ ⋃ (drop 1 all_boundary)) as Hall2.
  { intros X [k Hk]%list_elem_of_lookup. rewrite lookup_drop in Hk.
    unfold all2, AllGather in Hk. rewrite <- list_fmap_compose in Hk.
    rewrite list_lookup_fmap in Hk.
    apply fmap_Some in Hk as (w1 & Hk & ->).
    destruct (Hw1 _ _ Hk) as (w & c & _ & Hc & -> & _). simpl.
    destruct (PEval_merge_frame (w_frag w) c all_boundary) as (_ & _ & _ & Hup).
    assert (boundary c ⊆ ⋃ (drop 1 all_boundary)) as Hcb.
    { intros e He. apply elem_of_union_list. exists (boundary c).
      split; [|done]. apply list_elem_of_lookup. exists k.
      rewrite lookup_drop. unfold all_boundary, AllGather.
      by rewrite list_lookup_fmap, Hc. }
    set_solver. }
  eexists. split; [reflexivity|].
  rewrite zip_with_fmap_r, zip_with_diag.
  apply Forall2_fmap_r, Forall_Forall2_diag, Forall_forall.
  intros w1 [k Hk]%list_elem_of_lookup.
  destruct (Hw1 k w1 Hk) as (w & c & _ & _ & -> & _). simpl.
  split; [done|].
  assert (merge_gathered (boundary (PEval_merge (w_frag w) c all_boundary)) all2
          = boundary (PEval_merge (w_frag w) c all_boundary) ∨
          fid (w_frag w) ≠ 0) as Hm.
  { destruct (decide (fid (w_frag w) = 0)) as [Hf|Hf]; [left|by right].
    rewrite merge_gathered_union. apply set_eq. intros e.
    rewrite elem_of_union, elem_of_union_list. split; [|by left].
    intros [?|(X & HX & He)]; [done|].
    apply (Hall2 X HX) in He. unfold PEval_merge. rewrite decide_True by done.
    rewrite writeToCtx_eq. simpl. rewrite merge_gathered_union. set_solver. }
  set (c1 := PEval_merge (w_frag w) c all_boundary) in *.
  destruct (decide (fid (w_frag w) = 0)) as [Hf|Hf].
  - destruct Hm as [Hm|?]; [|done].
    assert (PEval_merge (w_frag w) c1 all2 =
            writeToCtx (w_frag w)
              (set_boundary (merge_gathered (boundary c1) all2) c1)) as ->.
    { unfold PEval_merge at 1. by rewrite decide_True. }
    rewrite writeToCtx_eq, Hm. simpl. split; [done|]. split; [|done].
    unfold output. simpl. subst c1. unfold PEval_merge.
    rewrite decide_True by done. by rewrite writeToCtx_eq.
  - assert (PEval_merge (w_frag w) c1 all2 = c1) as ->; [|done].
    unfold PEval_merge at 1. by rewrite decide_False.
Qed.

Lemma PEval_round_again_witness :
  let ws := init_workers exFrags' "[1,2]" EmptyString in
  let ws1 := fresh_worker "[1,2]" EmptyString [1; 2]%Z [] exFrags' <$> exFrags' in
  PEval_round example_parseJson ws = Ok ws1 ∧
  ∃ ws2, PEval_round example_parseJson ws1 = Ok ws2 ∧
    Forall2 (λ w1 w2,
      w_frag w2 = w_frag w1 ∧
      boundary (w_ctx w2) = boundary (w_ctx w1) ∧
      output (w_ctx w2) = output (w_ctx w1) ∧
      assigned (w_ctx w2) =
        if decide (fid (w_frag w1) = 0)
        then result_tensor (w_frag w1) (boundary (w_ctx w1))
               :: assigned (w_ctx w1)
        else assigned (w_ctx w1)) ws1 ws2.
Proof.
  intros ws ws1.
  assert (PEval_round example_parseJson ws = Ok ws1) as Hr.
  { exact (PEval_round_fresh example_parseJson exFrags' "[1,2]" EmptyString
             [1; 2]%Z [] eq_refl eq_refl). }
  split; [exact Hr|].
  exact (PEval_round_again example_parseJson ws ws1 Hr).
Defined.
